(** * Casino catalogue: composite tree, aggregation and the indented text codec

    A shallow embedding of [main.cpp]: the [Component] hierarchy ([Game],
    [Group]), the helpers [getDepth] and [trimSpaces], the recursive-descent
    [parse] with its shared cursor, [loadFromFile], [saveToFile] and the two
    menu entries of [main] that call them.

    Conventions of the embedding:
    - [std::string] is [string] (a sequence of 8-bit characters);
    - [double] is the primitive binary64 [float], so [+] rounds as in C++;
    - [size_t] cursors and [int] depths are [nat]: a depth counts pairs of
      leading spaces of one line and a cursor never exceeds [lines.size()],
      so neither can reach the width of its C++ type;
    - an output stream is the text written to it;
    - the two text conversions of the C++ library, [operator<<(double)] and
      [std::stod], are parameters of the codec ([Section Codec]); a concrete
      decimal model of both ([Module Libc]) is used to run examples. *)

From Stdlib Require Import Bool Arith Lia List ZArith.
From Stdlib Require Import Ascii String.
From Stdlib Require Import PrimFloat SpecFloat FloatOps.
Import ListNotations.

Set Warnings "-inexact-float,-register-all".

Local Open Scope string_scope.
Local Open Scope list_scope.

(* ------------------------------------------------------------------ *)
(** ** Text helpers *)

Module Text.

(** [std::isspace] in the classic "C" locale, which the program never
    changes: space, and the control characters 9 to 13. *)
Definition isspace (c : ascii) : bool :=
  let n := nat_of_ascii c in
  Nat.eqb n 32 || (Nat.leb 9 n && Nat.leb n 13).

Definition newline : ascii := ascii_of_nat 10.
Definition space : ascii := " "%char.

Definition is_newline (c : ascii) : bool := Ascii.eqb c newline.

Definition empty (s : string) : bool :=
  match s with EmptyString => true | String _ _ => false end.

(** [s.substr(pos)], for [pos <= s.size()] (the only use in the program). *)
Fixpoint substr_from (pos : nat) (s : string) : string :=
  match pos, s with
  | O, _ => s
  | S p, String _ s' => substr_from p s'
  | S _, EmptyString => EmptyString
  end.

(** [s.substr(0, n)]: at most [n] characters. *)
Definition substr0 (n : nat) (s : string) : string := substring 0 n s.

(** [for (int i = 0; i < n; ++i) out << "  ";] *)
Fixpoint indent (n : nat) : string :=
  match n with
  | O => EmptyString
  | S k => String space (String space (indent k))
  end.

(** The extraction loop [while (iss >> part) parts.push_back(part)]:
    [cur] holds the characters of the token being read. *)
Fixpoint tokens_from (cur : string) (s : string) : list string :=
  match s with
  | EmptyString => if empty cur then [] else [cur]
  | String c s' =>
      if isspace c
      then (if empty cur then tokens_from EmptyString s'
            else cur :: tokens_from EmptyString s')
      else tokens_from (cur ++ String c EmptyString)%string s'
  end.

Definition tokens (s : string) : list string := tokens_from EmptyString s.

(** [while (std::getline(in, line)) lines.push_back(line)]: lines end at
    a newline; a last line without newline is still read, and nothing is
    read after the final newline. *)
Fixpoint getlines_from (cur : string) (s : string) : list string :=
  match s with
  | EmptyString => if empty cur then [] else [cur]
  | String c s' =>
      if is_newline c
      then cur :: getlines_from EmptyString s'
      else getlines_from (cur ++ String c EmptyString)%string s'
  end.

Definition getlines (s : string) : list string := getlines_from EmptyString s.

Fixpoint no_char (p : ascii -> bool) (s : string) : bool :=
  match s with
  | EmptyString => true
  | String c s' => negb (p c) && no_char p s'
  end.

(** One whitespace-free, non-empty word. *)
Definition is_token (s : string) : bool := negb (empty s) && no_char isspace s.

End Text.
Import Text.

(* ------------------------------------------------------------------ *)
(** ** Component model *)

Inductive Component : Type :=
| Game (name : string) (revenue : float)
| Group (name : string) (children : list Component).

Definition isGroup (c : Component) : bool :=
  match c with Game _ _ => false | Group _ _ => true end.

Definition getName (c : Component) : string :=
  match c with Game n _ => n | Group n _ => n end.

(** [Group::getRevenue]: [total = 0.0; for child: total += child->getRevenue()]. *)
Fixpoint getRevenue (c : Component) : float :=
  match c with
  | Game _ revenue => revenue
  | Group _ children =>
      fold_left (fun total child => (total + getRevenue child)%float) children 0%float
  end.

(** [Game::addRevenue]; a group has no such member. *)
Definition addRevenue (c : Component) (amount : float) : Component :=
  match c with
  | Game n revenue => Game n (revenue + amount)%float
  | Group _ _ => c
  end.

(** [Group::add]: [children.push_back(component)]; a game has no such member. *)
Definition add (g : Component) (component : Component) : Component :=
  match g with
  | Group n children => Group n (children ++ [component])
  | Game _ _ => g
  end.

(** [Group::getChildren]: the loop pushes a pointer to each child in turn;
    a pointer is represented by the node it points to. *)
Definition getChildren (g : Component) : list Component :=
  match g with
  | Group _ children => fold_left (fun result child => result ++ [child]) children []
  | Game _ _ => []
  end.

(** [Group::getAllGames]: the games of a sub-group are inserted at the end,
    a game child is pushed at the end. *)
Fixpoint getAllGames (g : Component) : list Component :=
  match g with
  | Group _ children =>
      fold_left
        (fun games child =>
           if isGroup child then games ++ getAllGames child
           else games ++ [child])
        children []
  | Game _ _ => []
  end.

(** Pre-order listing of every node of a tree: a node, then the listings of
    its children from left to right. *)
Fixpoint preorder (c : Component) : list Component :=
  match c with
  | Game _ _ => [c]
  | Group _ children => c :: flat_map preorder children
  end.

(* ------------------------------------------------------------------ *)
(** ** Indentation *)

(** [getDepth]: the loop advances two characters at a time while both are
    spaces, and counts its iterations. *)
Fixpoint getDepth (line : string) : nat :=
  match line with
  | String " " (String " " rest) => S (getDepth rest)
  | _ => 0
  end.

(** [trimSpaces]: the same scan, returning what follows the counted pairs. *)
Fixpoint trimSpaces (line : string) : string :=
  match line with
  | String " " (String " " rest) => trimSpaces rest
  | _ => line
  end.

(* ------------------------------------------------------------------ *)
(** ** Exceptions *)

(** The two exceptions [std::stod] can throw; nothing in the program
    catches them. *)
Inductive exn : Type := invalid_argument | out_of_range.

Inductive result (A : Type) : Type :=
| Ok (a : A)
| Throw (e : exn).
Arguments Ok {A} a.
Arguments Throw {A} e.

(** The name assembled from the tokens of a leaf record:
    [parts[0]], then [" " + parts[i]] for [1 <= i < parts.size() - 1]. *)
Definition gameName (parts : list string) : string :=
  fold_left (fun name part => (name ++ " " ++ part)%string)
            (removelast (tl parts)) (hd EmptyString parts).

(** [if (child) group->add(std::move(child));] *)
Definition add_if (group : Component) (child : option Component) : Component :=
  match child with
  | Some c => add group c
  | None => group
  end.

(* ------------------------------------------------------------------ *)
(** ** The text codec *)

Section Codec.

(** [out << revenue] for a [double], as text. *)
Variable put_double : float -> string.

(** [std::stod]: the value, or the exception it throws. *)
Variable stod : string -> result float.

(** [Game::save] and [Group::save]: the text appended to [out]. *)
Fixpoint save (c : Component) (depth : nat) : string :=
  match c with
  | Game name revenue =>
      (indent depth ++ "GAME " ++ name ++ " " ++ put_double revenue
         ++ String newline EmptyString)%string
  | Group name children =>
      (indent depth ++ "GROUP " ++ name ++ String newline EmptyString
         ++ fold_right (fun child rest => save child (depth + 1) ++ rest)
                       EmptyString children)%string
  end.

(** [Game::display] and [Group::display]: the text sent to [std::cout]. *)
Fixpoint display (c : Component) (ind : nat) : string :=
  match c with
  | Game name revenue =>
      (indent ind ++ name ++ " | Revenue: " ++ put_double revenue
         ++ String newline EmptyString)%string
  | Group name children =>
      (indent ind ++ "----- " ++ name ++ " -----" ++ String newline EmptyString
         ++ fold_right (fun child rest => display child (ind + 1) ++ rest)
                       EmptyString children
         ++ indent ind ++ "Total: " ++ put_double (getRevenue c)
         ++ String newline EmptyString)%string
  end.

(** [parse], with the cursor [index] passed in and returned, and its
    [while] loop. Each call and each iteration uses one unit of [fuel];
    [None] means the fuel ran out. *)
Fixpoint parse_fuel (fuel : nat) (lines : list string) (index : nat)
  {struct fuel} : option (result (option Component * nat)) :=
  match fuel with
  | O => None
  | S fuel' =>
      match nth_error lines index with
      | None => Some (Ok (None, index))
      | Some line =>
          if empty line then parse_fuel fuel' lines (index + 1)
          else
            let currentDepth := getDepth line in
            let trimmed := trimSpaces line in
            if (substr0 6 trimmed =? "GROUP ")%string then
              let groupName := substr_from 6 trimmed in
              match while_fuel fuel' lines currentDepth
                               (Group groupName []) (index + 1) with
              | Some (Ok (group, index')) => Some (Ok (Some group, index'))
              | Some (Throw e) => Some (Throw e)
              | None => None
              end
            else if (substr0 5 trimmed =? "GAME ")%string then
              let parts := tokens (substr_from 5 trimmed) in
              if (2 <=? List.length parts)%nat then
                match stod (last parts EmptyString) with
                | Ok revenue =>
                    Some (Ok (Some (Game (gameName parts) revenue), index + 1))
                | Throw e => Some (Throw e)
                end
              else Some (Ok (None, index + 1))
            else Some (Ok (None, index + 1))
      end
  end
with while_fuel (fuel : nat) (lines : list string) (currentDepth : nat)
                (group : Component) (index : nat)
  {struct fuel} : option (result (Component * nat)) :=
  match fuel with
  | O => None
  | S fuel' =>
      match nth_error lines index with
      | None => Some (Ok (group, index))
      | Some line =>
          if empty line then while_fuel fuel' lines currentDepth group (index + 1)
          else
            let nextDepth := getDepth line in
            if (nextDepth <=? currentDepth)%nat then Some (Ok (group, index))
            else if (nextDepth =? currentDepth + 1)%nat then
              match parse_fuel fuel' lines index with
              | Some (Ok (child, index')) =>
                  while_fuel fuel' lines currentDepth (add_if group child) index'
              | Some (Throw e) => Some (Throw e)
              | None => None
              end
            else while_fuel fuel' lines currentDepth group (index + 1)
      end
  end.

(** Fuel that is always enough: two units per line, and two more. *)
Definition enough (lines : list string) : nat := 2 * List.length lines + 2.

(** [parse(lines, index)]: the node (or [nullptr]) and the final cursor, or
    the exception that escapes. The fallback branch is never taken
    ([parse_fuel_enough]). *)
Definition parse (lines : list string) (index : nat)
  : result (option Component * nat) :=
  match parse_fuel (enough lines) lines index with
  | Some r => r
  | None => Ok (None, index)
  end.

(** The [while] loop of [parse] for a group at depth [currentDepth],
    entered with the cursor at [index]. *)
Definition parse_while (lines : list string) (currentDepth : nat)
                       (group : Component) (index : nat)
  : result (Component * nat) :=
  match while_fuel (enough lines) lines currentDepth group index with
  | Some r => r
  | None => Ok (group, index)
  end.

(** What opening [filename] for reading gives: [None] when the stream
    cannot be opened, else the text of the file. *)
Definition source := option string.

(** [loadFromFile]: [nullptr] when the file cannot be opened, else the
    node [parse] returns from cursor 0. *)
Definition loadFromFile (src : source) : result (option Component) :=
  match src with
  | None => Ok None
  | Some text =>
      match parse (getlines text) 0 with
      | Ok (node, _) => Ok node
      | Throw e => Throw e
      end
  end.

(** What opening [filename] for writing gives: [false] when the stream
    cannot be opened. *)
Definition destination := bool.

(** What a call leaves behind: the text written to the destination
    ([None]: the destination was not touched), the text printed on
    [std::cout], and the exception that escaped, if any. *)
Record effect : Type := mkEffect {
  written : option string;
  console : string;
  raised : option exn
}.

Definition filename : string := "casino.txt".

(** [saveToFile]: the function returns [void]. *)
Definition saveToFile (root : Component) (dst : destination) : effect :=
  if dst
  then mkEffect (Some (save root 0))
                ("Saved to: " ++ filename ++ String newline EmptyString)%string
                None
  else mkEffect None EmptyString None.

(** Menu entry 5 of [main]: the new [root] and what is printed, or the
    exception that ends the program. *)
Definition menu_load (root : Component) (src : source)
  : result (Component * string) :=
  match loadFromFile src with
  | Throw e => Throw e
  | Ok loaded =>
      match loaded with
      | Some (Group n cs) =>
          Ok (Group n cs,
              ("Loaded from: " ++ filename ++ String newline EmptyString
                 ++ display (Group n cs) 0)%string)
      | _ => Ok (root, ("Failed to load file!" ++ String newline EmptyString)%string)
      end
  end.

(** Menu entry 4 of [main]: [root] is not changed. *)
Definition menu_save (root : Component) (dst : destination)
  : Component * effect :=
  (root, saveToFile root dst).

End Codec.
(* ------------------------------------------------------------------ *)
(** ** A decimal model of the two library conversions

    [put_double] follows [printf("%g")] with the stream's default precision
    of 6 significant digits; [stod] follows [strtod] (decimal and
    hexadecimal notation, [inf], [nan]) with round-to-nearest-even, and
    throws as [std::stod] does: [invalid_argument] when no number can be
    read, [out_of_range] when [strtod] reports [ERANGE]. Both work on the
    exact value of a [float] with integer arithmetic.

    The model stands for the library in the classic locale. It leaves out
    what a [float] does not hold (the sign and payload of a NaN, printed
    as "nan") and takes [ERANGE] to be reported on overflow and on an
    inexact result below the normal range. The theorems on the codec hold
    for every pair of conversions; the model serves to run the codec on
    concrete texts. *)

Module Libc.

Local Open Scope Z_scope.

Definition code (c : ascii) : Z := Z.of_nat (nat_of_ascii c).

Definition digit_of (c : ascii) : option Z :=
  let n := code c in
  if (48 <=? n) && (n <=? 57) then Some (n - 48) else None.

Definition hexdigit_of (c : ascii) : option Z :=
  let n := code c in
  if (48 <=? n) && (n <=? 57) then Some (n - 48)
  else if (97 <=? n) && (n <=? 102) then Some (n - 87)
  else if (65 <=? n) && (n <=? 70) then Some (n - 55)
  else None.

Definition lower (c : ascii) : ascii :=
  let n := code c in
  if (65 <=? n) && (n <=? 90) then ascii_of_nat (Z.to_nat (n + 32)) else c.

(** Reads digits in base [base]: the number read so far, how many digits
    were read, and what is left. *)
Fixpoint scan_digits (base : Z) (dig : ascii -> option Z) (acc : Z)
                     (count : Z) (s : string) : Z * Z * string :=
  match s with
  | String c s' =>
      match dig c with
      | Some d => scan_digits base dig (acc * base + d) (count + 1) s'
      | None => (acc, count, s)
      end
  | EmptyString => (acc, count, s)
  end.

(** Whether [s] starts with [word], letter case ignored; [word] is in
    lower case. Returns what follows. *)
Fixpoint after_word (word s : string) : option string :=
  match word, s with
  | EmptyString, _ => Some s
  | String w word', String c s' =>
      if Ascii.eqb w (lower c) then after_word word' s' else None
  | String _ _, EmptyString => None
  end.

Fixpoint skip_space (s : string) : string :=
  match s with
  | String c s' => if isspace c then skip_space s' else s
  | EmptyString => s
  end.

(** An optional sign: [true] for [-]. *)
Definition scan_sign (s : string) : bool * string :=
  match s with
  | String "-" s' => (true, s')
  | String "+" s' => (false, s')
  | _ => (false, s)
  end.

(** An optional exponent part introduced by the letter [mark] (lower
    case): its value, 0 when there is none or it has no digit. *)
Definition scan_exponent (mark : ascii) (s : string) : Z :=
  match s with
  | String c s' =>
      if Ascii.eqb (lower c) mark then
        let '(neg, s2) := scan_sign s' in
        let '(v, n, _) := scan_digits 10 digit_of 0 0 s2 in
        if n =? 0 then 0 else if neg then - v else v
      else 0
  | EmptyString => 0
  end.

(** Digits with an optional radix point: the digits read as one integer,
    how many digits there are in all, and how many follow the point. *)
Definition scan_mantissa (base : Z) (dig : ascii -> option Z) (s : string)
  : Z * Z * Z * string :=
  let '(ip, n1, r1) := scan_digits base dig 0 0 s in
  match r1 with
  | String "." r1' =>
      let '(all, n2, r2) := scan_digits base dig ip 0 r1' in
      (all, n1 + n2, n2, if n1 + n2 =? 0 then s else r2)
  | _ => (ip, n1, 0, r1)
  end.

(** The exact value [m * 2^e] of a finite [spec_float] equals [n / d]. *)
Definition exactly (x : spec_float) (n d : Z) : bool :=
  match x with
  | S754_finite _ m e =>
      if 0 <=? e then (Zpos m * 2 ^ e * d =? n) else (Zpos m * d =? n * 2 ^ (- e))
  | S754_zero _ => n =? 0
  | _ => false
  end.

Definition subnormal (x : spec_float) : bool :=
  match x with
  | S754_finite _ m _ => Z.pos (SpecFloat.digits2_pos m) <? prec
  | S754_zero _ => true
  | _ => false
  end.

(** [n / d] (both positive) rounded to the nearest [double], ties to even,
    with the sign [neg]; [ERANGE] on overflow and on an inexact result in
    the subnormal range. *)
Definition round_ratio (neg : bool) (n d : Z) : result float :=
  match n, d with
  | Zpos pn, Zpos pd =>
      let x := SFdiv prec emax (S754_finite neg pn 0) (S754_finite false pd 0) in
      match x with
      | S754_infinity _ => Throw out_of_range
      | _ => if subnormal x && negb (exactly x n d) then Throw out_of_range
             else Ok (SF2Prim x)
      end
  | _, _ => Ok (SF2Prim (S754_zero neg))
  end.

(** [mant * base^ex] as a ratio of integers, with the exponent clamped
    where the result is already decided. *)
Definition scaled (neg : bool) (mant ndigits base ex : Z) : result float :=
  if mant =? 0 then Ok (SF2Prim (S754_zero neg))
  else if 5000 <? ex then Throw out_of_range
  else if ex + 4 * ndigits <? -5000 then Throw out_of_range
  else if 0 <=? ex then round_ratio neg (mant * base ^ ex) 1
  else round_ratio neg mant (base ^ (- ex)).

Definition stod (str : string) : result float :=
  let '(neg, s) := scan_sign (skip_space str) in
  match after_word "inf" s with
  | Some _ => Ok (SF2Prim (S754_infinity neg))
  | None =>
  match after_word "nan" s with
  | Some _ => Ok (SF2Prim S754_nan)
  | None =>
      let hex :=
        match after_word "0x" s with
        | Some h =>
            let '(mant, n, nfrac, rest) := scan_mantissa 16 hexdigit_of h in
            if n =? 0 then None
            else Some (scaled neg mant n 2 (scan_exponent "p" rest - 4 * nfrac))
        | None => None
        end in
      match hex with
      | Some r => r
      | None =>
          let '(mant, n, nfrac, rest) := scan_mantissa 10 digit_of s in
          if n =? 0 then Throw invalid_argument
          else scaled neg mant n 10 (scan_exponent "e" rest - nfrac)
      end
  end
  end.

(** The decimal digits of a non-negative integer, most significant first. *)
Definition digit_char (d : Z) : ascii := ascii_of_nat (Z.to_nat (48 + d)).

Fixpoint decimal_from (fuel : nat) (n : Z) (acc : string) : string :=
  match fuel with
  | O => acc
  | S fuel' =>
      let acc' := String (digit_char (n mod 10)) acc in
      if n <? 10 then acc' else decimal_from fuel' (n / 10) acc'
  end.

Definition decimal (n : Z) : string :=
  decimal_from (S (Z.to_nat (Z.log2 n))) n EmptyString.

(** [floor (log10 (n / d))] for positive [n] and [d], searched upwards from
    [x] ([n / d >= 10^x] is known) . *)
Definition ge_pow10 (n d x : Z) : bool :=
  if 0 <=? x then d * 10 ^ x <=? n else d <=? n * 10 ^ (- x).

Fixpoint log10_up (fuel : nat) (n d x : Z) : Z :=
  match fuel with
  | O => x
  | S fuel' => if ge_pow10 n d (x + 1) then log10_up fuel' n d (x + 1) else x
  end.

Definition log10_floor (n d : Z) : Z :=
  (* 2^(a-b-1) < n/d < 2^(a-b+1) with a, b the bit lengths,
     and 2^10 > 10^3, 2^3 < 10 *)
  let k := Z.log2 n - Z.log2 d - 1 in
  let x0 := if 0 <=? k then k * 3 / 10 - 1 else k / 3 - 1 in
  log10_up 700 n d x0.

(** [n / d] rounded to an integer, ties to even. *)
Definition div_half_even (n d : Z) : Z :=
  let q := n / d in
  let r := n mod d in
  match 2 * r ?= d with
  | Lt => q
  | Gt => q + 1
  | Eq => if Z.even q then q else q + 1
  end.

Fixpoint strip_zeros_rev (s : list ascii) : list ascii :=
  match s with
  | "0"%char :: s' => strip_zeros_rev s'
  | _ => s
  end.

(** Removes trailing zeros of a fraction. *)
Definition strip_zeros (s : string) : string :=
  string_of_list_ascii (rev (strip_zeros_rev (rev (list_ascii_of_string s)))).

Definition with_fraction (int_part frac : string) : string :=
  let f := strip_zeros frac in
  if empty f then int_part else (int_part ++ "." ++ f)%string.

Fixpoint zeros (n : nat) : string :=
  match n with O => EmptyString | S k => String "0" (zeros k) end.

(** Style [%g] with precision 6 for the positive value [n / d]. *)
Definition format_g6 (n d : Z) : string :=
  let x0 := log10_floor n d in
  let q0 := if 5 <=? x0 then div_half_even n (d * 10 ^ (x0 - 5))
            else div_half_even (n * 10 ^ (5 - x0)) d in
  let '(q, x) := if q0 =? 1000000 then (100000, x0 + 1) else (q0, x0) in
  let ds := decimal q in
  if (x <? -4) || (6 <=? x) then
    let ax := Z.abs x in
    let sign := if x <? 0 then "-" else "+" in
    let pad := if ax <? 10 then "0" else "" in
    (with_fraction (substr0 1 ds) (substr_from 1 ds)
       ++ "e" ++ sign ++ pad ++ decimal ax)%string
  else if 0 <=? x then
    with_fraction (substr0 (Z.to_nat (x + 1)) ds) (substr_from (Z.to_nat (x + 1)) ds)
  else
    with_fraction "0" (zeros (Z.to_nat (- x - 1)) ++ ds)%string.

Definition put_double (x : float) : string :=
  match Prim2SF x with
  | S754_zero s => if s then "-0" else "0"
  | S754_infinity s => if s then "-inf" else "inf"
  | S754_nan => "nan"
  | S754_finite s m e =>
      let sign := if s then "-" else "" in
      let digits := if 0 <=? e then format_g6 (Zpos m * 2 ^ e) 1
                    else format_g6 (Zpos m) (2 ^ (- e)) in
      (sign ++ digits)%string
  end.

End Libc.

(* ------------------------------------------------------------------ *)
(** ** The parser read on the lines that remain

    A big-step reading of [parse] and of its loop: the first argument is the
    list of lines from the cursor on, the cursor of a result counts the
    lines consumed. [parse_rel_sound] and [parse_rel_complete] relate it to
    [parse]. *)

(** Moves the cursor of a result [k] lines forward. *)
Definition shift {A : Type} (k : nat) (r : result (A * nat)) : result (A * nat) :=
  match r with
  | Ok (a, n) => Ok (a, k + n)
  | Throw e => Throw e
  end.

(** A group result seen as the node [parse] returns. *)
Definition as_node (r : result (Component * nat)) : result (option Component * nat) :=
  match r with
  | Ok (g, n) => Ok (Some g, n)
  | Throw e => Throw e
  end.

(** The node of a result, without its cursor. *)
Definition node_of {A : Type} (r : result (A * nat)) : result A :=
  match r with
  | Ok (a, _) => Ok a
  | Throw e => Throw e
  end.

Definition is_group_record (line : string) : bool :=
  (substr0 6 (trimSpaces line) =? "GROUP ")%string.

Definition is_game_record (line : string) : bool :=
  (substr0 5 (trimSpaces line) =? "GAME ")%string.

(** The tokens of a leaf record: what [parts] holds. *)
Definition leaf_parts (line : string) : list string :=
  tokens (substr_from 5 (trimSpaces line)).

Section Reading.

Variable stod : string -> result float.

(** What [parse] makes of one non-empty line that is not a group record. *)
Definition single_record (line : string) : result (option Component * nat) :=
  if is_game_record line then
    if (2 <=? List.length (leaf_parts line))%nat then
      match stod (last (leaf_parts line) EmptyString) with
      | Ok revenue => Ok (Some (Game (gameName (leaf_parts line)) revenue), 1)
      | Throw e => Throw e
      end
    else Ok (None, 1)
  else Ok (None, 1).

Inductive parse_rel : list string -> result (option Component * nat) -> Prop :=
| PR_end :
    parse_rel [] (Ok (None, 0))
| PR_blank rest res :
    parse_rel rest res ->
    parse_rel (EmptyString :: rest) (shift 1 res)
| PR_group line rest res :
    empty line = false ->
    is_group_record line = true ->
    while_rel (getDepth line) rest
              (Group (substr_from 6 (trimSpaces line)) []) res ->
    parse_rel (line :: rest) (as_node (shift 1 res))
| PR_single line rest :
    empty line = false ->
    is_group_record line = false ->
    parse_rel (line :: rest) (single_record line)
with while_rel : nat -> list string -> Component -> result (Component * nat) -> Prop :=
| WR_end d group :
    while_rel d [] group (Ok (group, 0))
| WR_blank d rest group res :
    while_rel d rest group res ->
    while_rel d (EmptyString :: rest) group (shift 1 res)
| WR_break d line rest group :
    empty line = false ->
    getDepth line <= d ->
    while_rel d (line :: rest) group (Ok (group, 0))
| WR_child d line rest group child n res :
    empty line = false ->
    getDepth line = d + 1 ->
    parse_rel (line :: rest) (Ok (child, n)) ->
    while_rel d (skipn n (line :: rest)) (add_if group child) res ->
    while_rel d (line :: rest) group (shift n res)
| WR_child_throw d line rest group e :
    empty line = false ->
    getDepth line = d + 1 ->
    parse_rel (line :: rest) (Throw e) ->
    while_rel d (line :: rest) group (Throw e)
| WR_orphan d line rest group res :
    empty line = false ->
    d + 1 < getDepth line ->
    while_rel d rest group res ->
    while_rel d (line :: rest) group (shift 1 res).

End Reading.

Scheme parse_rel_mind := Minimality for parse_rel Sort Prop
  with while_rel_mind := Minimality for while_rel Sort Prop.
Combined Scheme parse_while_rel_ind from parse_rel_mind, while_rel_mind.

(* ------------------------------------------------------------------ *)
(** ** Vocabulary of the properties *)

(** A failure is surfaced by a call when an exception escapes from it or
    when it prints something; [saveToFile] returns no value. *)
Definition surfaced (e : effect) : Prop :=
  raised e <> None \/ console e <> EmptyString.

(** The text made of [lines], each ended by a newline. *)
Definition unlines (lines : list string) : string :=
  fold_right (fun line rest => (line ++ String newline rest)%string)
             EmptyString lines.

(** The lines of [original] with empty lines inserted anywhere. Only
    the empty string is inserted: it is the one line that [line.empty()]
    holds of. *)
Inductive blank_inserted : list string -> list string -> Prop :=
| BI_nil : blank_inserted [] []
| BI_keep line original padded :
    blank_inserted original padded ->
    blank_inserted (line :: original) (line :: padded)
| BI_blank original padded :
    blank_inserted original padded ->
    blank_inserted original (EmptyString :: padded).

(** A character of white space, as [isspace] has it in the C locale:
    the space and the characters 9 to 13 (tab, line feed, vertical tab,
    form feed, carriage return). *)
Definition is_space (c : ascii) : bool :=
  let n := nat_of_ascii c in
  Nat.eqb n 32 || (Nat.leb 9 n && Nat.leb n 13).

(** A blank line in the ordinary sense: nothing but white space. The
    empty line is one of them. *)
Fixpoint whitespace (line : string) : bool :=
  match line with
  | EmptyString => true
  | String c rest => is_space c && whitespace rest
  end.

(** The lines of [original] with lines of white space inserted anywhere. *)
Inductive whitespace_inserted : list string -> list string -> Prop :=
| WI_nil : whitespace_inserted [] []
| WI_keep line original padded :
    whitespace_inserted original padded ->
    whitespace_inserted (line :: original) (line :: padded)
| WI_blank blank original padded :
    whitespace blank = true ->
    whitespace_inserted original padded ->
    whitespace_inserted original (blank :: padded).

(** The non-empty lines of a sequence. *)
Definition nonblank (lines : list string) : list string :=
  filter (fun line => negb (empty line)) lines.

(** Two results with the same node (or exception), whose cursors point
    to the same place once empty lines are removed. *)
Definition aligned {A : Type} (ls : list string)
                   (r r' : result (A * nat)) : Prop :=
  match r, r' with
  | Ok (a, n), Ok (a', n') =>
      a = a' /\ nonblank (skipn n ls) = skipn n' (nonblank ls)
  | Throw e, Throw e' => e = e'
  | _, _ => False
  end.

(** [total = 0.0; for g in games: total += g->getRevenue()]. *)
Definition sum_revenue (games : list Component) : float :=
  fold_left (fun total g => (total + getRevenue g)%float) games 0%float.

(** [for g in games: total += g->getRevenue()], from a running [total]. *)
Definition add_revenues (total : float) (games : list Component) : float :=
  fold_left (fun t g => (t + getRevenue g)%float) games total.

(** Regrouping is exact in a tree: wherever the loop of [getRevenue] meets
    a sub-group, adding the sum of the games of that sub-group to the sum
    [total] of the games listed before it gives the [double] that adding
    these games to [total] one by one gives; and so on inside the
    sub-group. Nothing is asked where a child is a game. *)
Fixpoint regroups (g : Component) : Prop :=
  match g with
  | Game _ _ => True
  | Group _ children =>
      (fix go (total : float) (cs : list Component) {struct cs} : Prop :=
         match cs with
         | [] => True
         | c :: rest =>
             regroups c
             /\ match c with
                | Game _ _ => True
                | Group _ _ =>
                    (total + sum_revenue (getAllGames c))%float
                    = add_revenues total (getAllGames c)
                end
             /\ go (add_revenues total
                      (if isGroup c then getAllGames c else [c])) rest
         end) 0%float children
  end.

(** A group built by [Group(n)] followed by one [add] per element. *)
Definition build (n : string) (items : list Component) : Component :=
  fold_left add items (Group n []).

(** A name that the tokenizer of a leaf record gives back unchanged:
    non-empty words separated by single spaces. *)
Definition spaced_words (name : string) : Prop :=
  tokens name <> [] /\
  fold_left (fun acc part => (acc ++ " " ++ part)%string)
            (tl (tokens name)) (hd EmptyString (tokens name)) = name.

(** The line [save] writes for a node itself. *)
Definition record_line (put_double : float -> string) (c : Component)
                       (depth : nat) : string :=
  match c with
  | Game name revenue =>
      (indent depth ++ "GAME " ++ name ++ " " ++ put_double revenue)%string
  | Group name _ => (indent depth ++ "GROUP " ++ name)%string
  end.

(** The lines [save] writes for a tree: the node, then its children. *)
Fixpoint lines_of (put_double : float -> string) (c : Component)
                  (depth : nat) : list string :=
  record_line put_double c depth ::
  match c with
  | Game _ _ => []
  | Group _ children =>
      flat_map (fun child => lines_of put_double child (depth + 1)) children
  end.

(** What may follow the lines of a group at depth [d]: nothing, or a
    non-empty line that is not deeper than the group. *)
Definition ends_group (d : nat) (post : list string) : Prop :=
  match post with
  | [] => True
  | line :: _ => empty line = false /\ getDepth line <= d
  end.

(** No name of the tree holds one of the reserved prefixes. *)
Fixpoint reserved_free (c : Component) : bool :=
  let free name :=
    match index 0 "GROUP " name, index 0 "GAME " name with
    | None, None => true
    | _, _ => false
    end in
  match c with
  | Game name _ => free name
  | Group name children => free name && forallb reserved_free children
  end.

(** A tree that [save] followed by [parse] gives back: no name holds a
    newline, the name of a game is made of words separated by single spaces,
    and a revenue is written as one word that [stod] reads back as the
    same [double]. *)
Fixpoint storable (put_double : float -> string) (stod : string -> result float)
                  (c : Component) : Prop :=
  match c with
  | Game name revenue =>
      spaced_words name /\
      is_token (put_double revenue) = true /\
      stod (put_double revenue) = Ok revenue
  | Group name children =>
      no_char is_newline name = true /\
      fold_right (fun child rest => storable put_double stod child /\ rest)
                 True children
  end.

(* ------------------------------------------------------------------ *)
(** ** Pointers into the tree and the menu of [main]

    A [Component*] handed out by [getChildren] or [getAllGames] designates
    one node of the tree owned by [root]. It is modelled by the position of
    that node: the indices of the children to follow from the node the
    call was made on. Reading through a pointer is [deref], calling a
    mutating member through it is [modify]. *)

Definition ref : Type := list nat.

(** Applies [f] to the element of index [i], if there is one. *)
Fixpoint update_nth {A : Type} (i : nat) (f : A -> A) (l : list A) : list A :=
  match l, i with
  | [], _ => []
  | x :: l', O => f x :: l'
  | x :: l', S i' => x :: update_nth i' f l'
  end.

(** The node a pointer designates. *)
Fixpoint deref (c : Component) (p : ref) : option Component :=
  match p with
  | [] => Some c
  | i :: p' =>
      match c with
      | Group _ children =>
          match nth_error children i with
          | Some child => deref child p'
          | None => None
          end
      | Game _ _ => None
      end
  end.

(** The tree after the node a pointer designates has been changed by [f]. *)
Fixpoint modify (f : Component -> Component) (p : ref) (c : Component)
  : Component :=
  match p with
  | [] => f c
  | i :: p' =>
      match c with
      | Group n children => Group n (update_nth i (modify f p') children)
      | Game _ _ => c
      end
  end.

(** [Group::getChildren], as pointers: one per child, in order. *)
Definition getChildren_refs (g : Component) : list ref :=
  match g with
  | Group _ children =>
      snd (fold_left (fun '(i, result) (_ : Component) => (S i, result ++ [[i]]))
                     children (0, []))
  | Game _ _ => []
  end.

(** [Group::getAllGames], as pointers: the pointers a sub-group returns
    lead through that child, a game child is pointed to directly. *)
Fixpoint getAllGames_refs (g : Component) : list ref :=
  match g with
  | Group _ children =>
      snd (fold_left
             (fun '(i, games) child =>
                (S i,
                 if isGroup child
                 then games ++ map (cons i) (getAllGames_refs child)
                 else games ++ [[i]]))
             children (0, []))
  | Game _ _ => []
  end.

(** The pointers to the games below the children [children], the first of
    which has index [i]. *)
Fixpoint games_refs_from (i : nat) (children : list Component) : list ref :=
  match children with
  | [] => []
  | child :: rest =>
      (if isGroup child then map (cons i) (getAllGames_refs child) else [[i]])
        ++ games_refs_from (S i) rest
  end.

(** [std::cout << n] for a [size_t]. *)
Definition put_size_t (n : nat) : string := Libc.decimal (Z.of_nat n).

Definition endl : string := String newline EmptyString.

(** The tree [main] starts with. *)
Definition initial_root : Component :=
  Group "Casino Games"
    [Group "Table Games" [Game "Blackjack" 0; Game "Roulette" 0];
     Group "Slot Games" [Game "Mega Joker" 0]].

(** Menu entry 2 of [main], given what is read from [std::cin]: the
    number [groupIndex] and, when that number selects a group, the name and
    the revenue of the new game. Returns the tree and what is printed. *)
Definition menu_add_game (root : Component) (groupIndex : nat)
                         (gameName : string) (revenue : float)
  : Component * string :=
  let children := getChildren root in
  let listing :=
    snd (fold_left
           (fun '(i, out) child =>
              (S i,
               if isGroup child
               then (out ++ put_size_t (i + 1) ++ ". " ++ getName child ++ endl)%string
               else out))
           children (0, EmptyString)) in
  let prompt := ("Groups:" ++ endl ++ listing ++ "Select group: ")%string in
  if (0 <? groupIndex)%nat && (groupIndex <=? List.length children)%nat
     && match nth_error children (groupIndex - 1) with
        | Some child => isGroup child
        | None => false
        end
  then (modify (fun group => add group (Game gameName revenue))
               [groupIndex - 1] root,
        (prompt ++ "Game name: " ++ "Revenue: " ++ "Game added!" ++ endl)%string)
  else (root, prompt).

Section MenuRevenue.

Variable put_double : float -> string.

(** Menu entry 3 of [main], given the number [gameIndex] and, when it
    selects a game, the amount read from [std::cin]. *)
Definition menu_add_revenue (root : Component) (gameIndex : nat)
                            (amount : float) : Component * string :=
  let games := getAllGames root in
  let listing :=
    snd (fold_left
           (fun '(i, out) game =>
              (S i,
               (out ++ put_size_t (i + 1) ++ ". " ++ getName game
                  ++ " (Revenue: " ++ put_double (getRevenue game) ++ ")"
                  ++ endl)%string))
           games (0, EmptyString)) in
  let prompt := ("Games:" ++ endl ++ listing ++ "Select game: ")%string in
  if (0 <? gameIndex)%nat && (gameIndex <=? List.length games)%nat
  then
    match nth_error (getAllGames_refs root) (gameIndex - 1) with
    | Some p =>
        (modify (fun game => addRevenue game amount) p root,
         (prompt ++ "Add revenue: " ++ "Revenue added!" ++ endl)%string)
    | None => (root, prompt)
    end
  else (root, prompt).

End MenuRevenue.

(* ------------------------------------------------------------------ *)
(** ** More vocabulary *)

(** No name of the tree holds a newline, and no revenue is written with
    one. *)
Fixpoint plain (put_double : float -> string) (c : Component) : Prop :=
  match c with
  | Game name revenue =>
      no_char is_newline name = true /\
      no_char is_newline (put_double revenue) = true
  | Group name children =>
      no_char is_newline name = true /\
      fold_right (fun child rest => plain put_double child /\ rest)
                 True children
  end.

(** Every revenue of the tree is written as one word that [stod] reads
    back as the same [double]. *)
Fixpoint revenues_stable (put_double : float -> string)
                         (stod : string -> result float)
                         (c : Component) : Prop :=
  match c with
  | Game _ revenue =>
      is_token (put_double revenue) = true /\
      stod (put_double revenue) = Ok revenue
  | Group _ children =>
      fold_right (fun child rest => revenues_stable put_double stod child /\ rest)
                 True children
  end.

(** The name of every game is made of words separated by single spaces,
    and no name of a group holds a newline. *)
Fixpoint tidy_names (c : Component) : Prop :=
  match c with
  | Game name _ => spaced_words name
  | Group name children =>
      no_char is_newline name = true /\
      fold_right (fun child rest => tidy_names child /\ rest) True children
  end.

(** The number of groups of a tree. *)
Fixpoint count_groups (c : Component) : nat :=
  match c with
  | Game _ _ => 0
  | Group _ children =>
      S (fold_right (fun child rest => count_groups child + rest) 0 children)
  end.

(** The number of newline characters of a text: the lines it ends. *)
Fixpoint newlines (s : string) : nat :=
  match s with
  | EmptyString => 0
  | String c s' => (if is_newline c then 1 else 0) + newlines s'
  end.

(* ------------------------------------------------------------------ *)
(** * Properties *)

(** Structural induction that reaches the children of a group. *)
Lemma Component_ind' (P : Component -> Prop) :
  (forall n r, P (Game n r)) ->
  (forall n cs, Forall P cs -> P (Group n cs)) ->
  forall c, P c.
Proof.
  intros HG HGr.
  fix IH 1.
  intros [n r | n cs].
  - apply HG.
  - apply HGr.
    induction cs as [| c cs IHcs]; constructor.
    + apply IH.
    + exact IHcs.
Qed.

(** ** The fuel of [parse] *)

Section Fuel.

Variable stod : string -> result float.

Lemma nth_error_lt (lines : list string) i line :
  nth_error lines i = Some line -> i < List.length lines.
Proof.
  intros H. apply nth_error_Some. congruence.
Qed.

(** A call moves the cursor forward, and past at least one line when
    there is one. *)
Lemma fuel_progress fuel lines :
  (forall i c j, parse_fuel stod fuel lines i = Some (Ok (c, j)) ->
                 i <= j /\ (i < List.length lines -> i < j)) /\
  (forall d g i g' j, while_fuel stod fuel lines d g i = Some (Ok (g', j)) -> i <= j).
Proof.
  induction fuel as [| fuel [IHp IHw]]; split.
  - discriminate.
  - discriminate.
  - intros i c j H. cbn [parse_fuel] in H.
    destruct (nth_error lines i) as [line |] eqn:Hnth.
    + destruct (empty line).
      * apply IHp in H. lia.
      * destruct (substr0 6 (trimSpaces line) =? "GROUP ")%string.
        -- destruct (while_fuel stod fuel lines (getDepth line) _ (i + 1))
             as [[[g' j'] | e] |] eqn:Hw; try discriminate.
           injection H as <- <-. apply IHw in Hw. lia.
        -- destruct (substr0 5 (trimSpaces line) =? "GAME ")%string.
           ++ destruct (2 <=? _)%nat.
              ** destruct (stod _); try discriminate.
                 injection H as <- <-. lia.
              ** injection H as <- <-. lia.
           ++ injection H as <- <-. lia.
    + injection H as <- <-. apply nth_error_None in Hnth. lia.
  - intros d g i g' j H. cbn [while_fuel] in H.
    destruct (nth_error lines i) as [line |] eqn:Hnth.
    + destruct (empty line).
      * apply IHw in H. lia.
      * destruct (getDepth line <=? d)%nat.
        -- injection H as <- <-. lia.
        -- destruct (getDepth line =? d + 1)%nat.
           ++ destruct (parse_fuel stod fuel lines i) as [[[c j'] | e] |] eqn:Hp;
                try discriminate.
              apply IHp in Hp. apply IHw in H. lia.
           ++ apply IHw in H. lia.
    + injection H as <- <-. lia.
Qed.

Lemma parse_fuel_S fuel lines index :
  parse_fuel stod (S fuel) lines index =
  match nth_error lines index with
  | None => Some (Ok (None, index))
  | Some line =>
      if empty line then parse_fuel stod fuel lines (index + 1)
      else if is_group_record line then
        match while_fuel stod fuel lines (getDepth line)
                (Group (substr_from 6 (trimSpaces line)) []) (index + 1) with
        | Some r => Some (as_node r)
        | None => None
        end
      else Some (shift index (single_record stod line))
  end.
Proof.
  cbn [parse_fuel]. unfold is_group_record, single_record, is_game_record, leaf_parts.
  destruct (nth_error lines index) as [line |]; [| reflexivity].
  destruct (empty line); [reflexivity |].
  destruct (substr0 6 (trimSpaces line) =? "GROUP ")%string.
  - destruct (while_fuel stod fuel lines _ _ _) as [[[g j] | e] |]; reflexivity.
  - destruct (substr0 5 (trimSpaces line) =? "GAME ")%string; [| reflexivity].
    destruct (2 <=? _)%nat; [| reflexivity].
    destruct (stod _); reflexivity.
Qed.

Lemma while_fuel_S fuel lines d group index :
  while_fuel stod (S fuel) lines d group index =
  match nth_error lines index with
  | None => Some (Ok (group, index))
  | Some line =>
      if empty line then while_fuel stod fuel lines d group (index + 1)
      else if (getDepth line <=? d)%nat then Some (Ok (group, index))
      else if (getDepth line =? d + 1)%nat then
        match parse_fuel stod fuel lines index with
        | Some (Ok (child, index')) =>
            while_fuel stod fuel lines d (add_if group child) index'
        | Some (Throw e) => Some (Throw e)
        | None => None
        end
      else while_fuel stod fuel lines d group (index + 1)
  end.
Proof. reflexivity. Qed.

(** More fuel does not change a result. *)
Lemma fuel_mono fuel lines :
  (forall i r, parse_fuel stod fuel lines i = Some r ->
               parse_fuel stod (S fuel) lines i = Some r) /\
  (forall d g i r, while_fuel stod fuel lines d g i = Some r ->
                   while_fuel stod (S fuel) lines d g i = Some r).
Proof.
  induction fuel as [| fuel [IHp IHw]]; split; try discriminate.
  - intros i r H. rewrite parse_fuel_S in H. rewrite parse_fuel_S.
    destruct (nth_error lines i) as [line |]; [| exact H].
    destruct (empty line); [apply IHp; exact H |].
    destruct (is_group_record line); [| exact H].
    destruct (while_fuel stod fuel lines _ _ _) as [rw |] eqn:Hw; [| discriminate].
    apply IHw in Hw. rewrite Hw. exact H.
  - intros d g i r H. rewrite while_fuel_S in H. rewrite while_fuel_S.
    destruct (nth_error lines i) as [line |]; [| exact H].
    destruct (empty line); [apply IHw; exact H |].
    destruct (getDepth line <=? d)%nat; [exact H |].
    destruct (getDepth line =? d + 1)%nat; [| apply IHw; exact H].
    destruct (parse_fuel stod fuel lines i) as [rp |] eqn:Hp; [| discriminate].
    apply IHp in Hp. rewrite Hp.
    destruct rp as [[c j] | e]; [apply IHw; exact H | exact H].
Qed.

Lemma parse_fuel_le fuel fuel' lines i r :
  fuel <= fuel' ->
  parse_fuel stod fuel lines i = Some r -> parse_fuel stod fuel' lines i = Some r.
Proof.
  induction 1 as [| m _ IH]; [trivial |].
  intros H. apply fuel_mono, IH, H.
Qed.

Lemma while_fuel_le fuel fuel' lines d g i r :
  fuel <= fuel' ->
  while_fuel stod fuel lines d g i = Some r ->
  while_fuel stod fuel' lines d g i = Some r.
Proof.
  induction 1 as [| m _ IH]; [trivial |].
  intros H. apply fuel_mono, IH, H.
Qed.

(** Two units of fuel per remaining line are enough. *)
Lemma fuel_total fuel lines :
  (forall i, 2 * (List.length lines - i) + 1 <= fuel ->
             parse_fuel stod fuel lines i <> None) /\
  (forall d g i, 2 * (List.length lines - i) + 2 <= fuel ->
                 while_fuel stod fuel lines d g i <> None).
Proof.
  induction fuel as [| fuel [IHp IHw]]; split; try (intros; lia).
  - intros i Hf. rewrite parse_fuel_S.
    destruct (nth_error lines i) as [line |] eqn:Hnth; [| discriminate].
    apply nth_error_lt in Hnth.
    destruct (empty line); [apply IHp; lia |].
    destruct (is_group_record line); [| discriminate].
    destruct (while_fuel stod fuel lines _ _ _) as [rw |] eqn:Hw; [discriminate |].
    exfalso. revert Hw. apply IHw. lia.
  - intros d g i Hf. rewrite while_fuel_S.
    destruct (nth_error lines i) as [line |] eqn:Hnth; [| discriminate].
    apply nth_error_lt in Hnth.
    destruct (empty line); [apply IHw; lia |].
    destruct (getDepth line <=? d)%nat; [discriminate |].
    destruct (getDepth line =? d + 1)%nat; [| apply IHw; lia].
    destruct (parse_fuel stod fuel lines i) as [[[c j] | e] |] eqn:Hp.
    + apply (proj1 (fuel_progress fuel lines)) in Hp. apply IHw. lia.
    + discriminate.
    + exfalso. revert Hp. apply IHp. lia.
Qed.

(** [parse] never takes its fallback branch: the fuel it is given yields a
    result at every cursor. *)
Lemma parse_fuel_enough lines i :
  parse_fuel stod (enough lines) lines i = Some (parse stod lines i).
Proof.
  unfold parse.
  destruct (parse_fuel stod (enough lines) lines i) eqn:H; [reflexivity |].
  exfalso. revert H. apply fuel_total. unfold enough. lia.
Qed.

Lemma while_fuel_enough lines d g i :
  while_fuel stod (enough lines) lines d g i = Some (parse_while stod lines d g i).
Proof.
  unfold parse_while.
  destruct (while_fuel stod (enough lines) lines d g i) eqn:H; [reflexivity |].
  exfalso. revert H. apply fuel_total. unfold enough. lia.
Qed.

(** Whatever fuel yields a result yields the result of [parse]. *)
Lemma parse_fuel_parse fuel lines i r :
  parse_fuel stod fuel lines i = Some r -> parse stod lines i = r.
Proof.
  intros H.
  pose proof (parse_fuel_enough lines i) as He.
  apply (parse_fuel_le _ (Nat.max fuel (enough lines))) in H; [| lia].
  apply (parse_fuel_le _ (Nat.max fuel (enough lines))) in He; [| lia].
  congruence.
Qed.

Lemma while_fuel_while fuel lines d g i r :
  while_fuel stod fuel lines d g i = Some r -> parse_while stod lines d g i = r.
Proof.
  intros H.
  pose proof (while_fuel_enough lines d g i) as He.
  apply (while_fuel_le _ (Nat.max fuel (enough lines))) in H; [| lia].
  apply (while_fuel_le _ (Nat.max fuel (enough lines))) in He; [| lia].
  congruence.
Qed.

(** *** [parse] and its loop satisfy the equations of the source *)

Lemma parse_eq lines index :
  parse stod lines index =
  match nth_error lines index with
  | None => Ok (None, index)
  | Some line =>
      if empty line then parse stod lines (index + 1)
      else if is_group_record line then
        as_node (parse_while stod lines (getDepth line)
                   (Group (substr_from 6 (trimSpaces line)) []) (index + 1))
      else shift index (single_record stod line)
  end.
Proof.
  apply (parse_fuel_parse (S (enough lines))).
  rewrite parse_fuel_S.
  destruct (nth_error lines index) as [line |]; [| reflexivity].
  destruct (empty line); [apply parse_fuel_enough |].
  destruct (is_group_record line); [| reflexivity].
  rewrite while_fuel_enough. reflexivity.
Qed.

Lemma parse_while_eq lines d group index :
  parse_while stod lines d group index =
  match nth_error lines index with
  | None => Ok (group, index)
  | Some line =>
      if empty line then parse_while stod lines d group (index + 1)
      else if (getDepth line <=? d)%nat then Ok (group, index)
      else if (getDepth line =? d + 1)%nat then
        match parse stod lines index with
        | Ok (child, index') =>
            parse_while stod lines d (add_if group child) index'
        | Throw e => Throw e
        end
      else parse_while stod lines d group (index + 1)
  end.
Proof.
  apply (while_fuel_while (S (enough lines))).
  rewrite while_fuel_S.
  destruct (nth_error lines index) as [line |]; [| reflexivity].
  destruct (empty line); [apply while_fuel_enough |].
  destruct (getDepth line <=? d)%nat; [reflexivity |].
  destruct (getDepth line =? d + 1)%nat; [| apply while_fuel_enough].
  rewrite parse_fuel_enough.
  destruct (parse stod lines index) as [[c j] | e]; [| reflexivity].
  apply while_fuel_enough.
Qed.

End Fuel.

(** ** [parse] and the reading on the remaining lines agree *)

Lemma shift_shift {A : Type} a b (r : result (A * nat)) :
  shift a (shift b r) = shift (a + b) r.
Proof.
  destruct r as [[x n] | e]; cbn; [| reflexivity].
  f_equal. f_equal. lia.
Qed.

Lemma shift_0 {A : Type} (r : result (A * nat)) : shift 0 r = r.
Proof. destruct r as [[x n] | e]; reflexivity. Qed.

Lemma as_node_shift k r : as_node (shift k r) = shift k (as_node r).
Proof. destruct r as [[x n] | e]; reflexivity. Qed.

Lemma shift_inj {A : Type} k (r1 r2 : result (A * nat)) :
  shift k r1 = shift k r2 -> r1 = r2.
Proof.
  destruct r1 as [[x1 n1] | e1], r2 as [[x2 n2] | e2]; cbn; intros H;
    try discriminate; [| congruence].
  injection H as -> Hn. f_equal. f_equal. lia.
Qed.

Lemma skipn_cons_nth {A : Type} (l : list A) i x rest :
  skipn i l = x :: rest ->
  nth_error l i = Some x /\ skipn (i + 1) l = rest.
Proof.
  revert l. induction i as [| i IH]; intros [| y l] H; cbn in *; try discriminate.
  - injection H as -> ->. auto.
  - apply IH, H.
Qed.

Lemma skipn_nil_nth {A : Type} (l : list A) i :
  skipn i l = [] -> nth_error l i = None.
Proof.
  revert l. induction i as [| i IH]; intros [| y l] H; cbn in *;
    try discriminate; auto.
Qed.

Lemma nth_skipn_cons {A : Type} (l : list A) i x :
  nth_error l i = Some x -> skipn i l = x :: skipn (i + 1) l.
Proof.
  revert l. induction i as [| i IH]; intros [| y l] H; cbn in *; try discriminate.
  - injection H as ->. reflexivity.
  - apply IH, H.
Qed.

Lemma nth_skipn_nil {A : Type} (l : list A) i :
  nth_error l i = None -> skipn i l = [].
Proof.
  intros H. apply skipn_all2, nth_error_None, H.
Qed.

Lemma leb_depth_child line d :
  getDepth line = d + 1 ->
  (getDepth line <=? d)%nat = false /\ (getDepth line =? d + 1)%nat = true.
Proof.
  intros ->. split; [apply Nat.leb_gt; lia | apply Nat.eqb_refl].
Qed.

Lemma leb_depth_orphan line d :
  d + 1 < getDepth line ->
  (getDepth line <=? d)%nat = false /\ (getDepth line =? d + 1)%nat = false.
Proof.
  intros H. split; [apply Nat.leb_gt | apply Nat.eqb_neq]; lia.
Qed.

Section Agreement.

Variable stod : string -> result float.

(** The reading determines [parse] at every cursor. *)
Lemma parse_while_rel_sound :
  (forall ls r, parse_rel stod ls r ->
     forall lines i, skipn i lines = ls -> parse stod lines i = shift i r) /\
  (forall d ls g r, while_rel stod d ls g r ->
     forall lines i, skipn i lines = ls ->
     parse_while stod lines d g i = shift i r).
Proof.
  apply parse_while_rel_ind.
  - intros lines i H. rewrite parse_eq, (skipn_nil_nth _ _ H). cbn.
    now rewrite Nat.add_0_r.
  - intros rest res _ IH lines i H.
    apply skipn_cons_nth in H as [Hn Hr].
    rewrite parse_eq, Hn. cbn [empty].
    rewrite (IH _ _ Hr), shift_shift. reflexivity.
  - intros line rest res He Hg _ IH lines i H.
    apply skipn_cons_nth in H as [Hn Hr].
    rewrite parse_eq, Hn, He, Hg, (IH _ _ Hr).
    rewrite <- as_node_shift, shift_shift. reflexivity.
  - intros line rest He Hg lines i H.
    apply skipn_cons_nth in H as [Hn Hr].
    rewrite parse_eq, Hn, He, Hg. reflexivity.
  - intros d g lines i H. rewrite parse_while_eq, (skipn_nil_nth _ _ H). cbn.
    now rewrite Nat.add_0_r.
  - intros d rest g res _ IH lines i H.
    apply skipn_cons_nth in H as [Hn Hr].
    rewrite parse_while_eq, Hn. cbn [empty].
    rewrite (IH _ _ Hr), shift_shift. reflexivity.
  - intros d line rest g He Hd lines i H.
    apply skipn_cons_nth in H as [Hn Hr].
    rewrite parse_while_eq, Hn, He.
    apply Nat.leb_le in Hd. rewrite Hd. cbn. now rewrite Nat.add_0_r.
  - intros d line rest g child n res He Hd _ IHp _ IHw lines i H.
    pose proof (IHp _ _ H) as Hp.
    assert (Hs : skipn (i + n) lines = skipn n (line :: rest)).
    { rewrite <- H, skipn_skipn. f_equal. lia. }
    pose proof (IHw _ _ Hs) as Hw.
    apply skipn_cons_nth in H as [Hn Hr].
    destruct (leb_depth_child _ _ Hd) as [H1 H2].
    rewrite parse_while_eq, Hn, He, H1, H2, Hp. cbn [shift].
    rewrite Hw, shift_shift. reflexivity.
  - intros d line rest g e He Hd _ IHp lines i H.
    pose proof (IHp _ _ H) as Hp.
    apply skipn_cons_nth in H as [Hn Hr].
    destruct (leb_depth_child _ _ Hd) as [H1 H2].
    rewrite parse_while_eq, Hn, He, H1, H2, Hp. reflexivity.
  - intros d line rest g res He Hd _ IH lines i H.
    apply skipn_cons_nth in H as [Hn Hr].
    destruct (leb_depth_orphan _ _ Hd) as [H1 H2].
    rewrite parse_while_eq, Hn, He, H1, H2, (IH _ _ Hr), shift_shift.
    reflexivity.
Qed.

(** Every result of the fuelled functions is a reading. *)
Lemma parse_while_rel_complete fuel lines :
  (forall i r, parse_fuel stod fuel lines i = Some r ->
     exists r', r = shift i r' /\ parse_rel stod (skipn i lines) r') /\
  (forall d g i r, while_fuel stod fuel lines d g i = Some r ->
     exists r', r = shift i r' /\ while_rel stod d (skipn i lines) g r').
Proof.
  induction fuel as [| fuel [IHp IHw]]; split; try discriminate.
  - intros i r H. rewrite parse_fuel_S in H.
    destruct (nth_error lines i) as [line |] eqn:Hn.
    + rewrite (nth_skipn_cons _ _ _ Hn).
      destruct (empty line) eqn:He.
      * destruct line; [| discriminate].
        apply IHp in H as (r' & -> & Hr).
        exists (shift 1 r'). split; [now rewrite shift_shift | now constructor].
      * destruct (is_group_record line) eqn:Hg.
        -- destruct (while_fuel stod fuel lines _ _ _) as [rw |] eqn:Hw;
             [| discriminate].
           injection H as <-.
           apply IHw in Hw as (r' & -> & Hr).
           exists (as_node (shift 1 r')). split.
           ++ now rewrite <- as_node_shift, shift_shift.
           ++ now constructor.
        -- injection H as <-. eexists. split; [reflexivity |].
           now constructor.
    + injection H as <-. rewrite (nth_skipn_nil _ _ Hn).
      exists (Ok (None, 0)). split; [cbn; now rewrite Nat.add_0_r | constructor].
  - intros d g i r H. rewrite while_fuel_S in H.
    destruct (nth_error lines i) as [line |] eqn:Hn.
    + pose proof (nth_skipn_cons _ _ _ Hn) as Hs. rewrite Hs.
      destruct (empty line) eqn:He.
      * destruct line; [| discriminate].
        apply IHw in H as (r' & -> & Hr).
        exists (shift 1 r'). split; [now rewrite shift_shift | now constructor].
      * destruct (getDepth line <=? d)%nat eqn:H1.
        -- injection H as <-. exists (Ok (g, 0)).
           split; [cbn; now rewrite Nat.add_0_r |].
           apply WR_break; [exact He | now apply Nat.leb_le].
        -- apply Nat.leb_gt in H1.
           destruct (getDepth line =? d + 1)%nat eqn:H2.
           ++ apply Nat.eqb_eq in H2.
              destruct (parse_fuel stod fuel lines i) as [rp |] eqn:Hp;
                [| discriminate].
              apply IHp in Hp as (rp' & -> & Hrp). rewrite Hs in Hrp.
              destruct rp' as [[c n] | e]; cbn [shift] in H.
              ** apply IHw in H as (r' & -> & Hr).
                 exists (shift n r'). split; [now rewrite shift_shift |].
                 eapply WR_child; eauto.
                 rewrite <- Hs, skipn_skipn.
                 replace (n + i) with (i + n) by lia. exact Hr.
              ** injection H as <-. exists (Throw e). split; [reflexivity |].
                 now apply WR_child_throw.
           ++ apply Nat.eqb_neq in H2.
              apply IHw in H as (r' & -> & Hr).
              exists (shift 1 r'). split; [now rewrite shift_shift |].
              apply WR_orphan; [exact He | lia | exact Hr].
    + injection H as <-. rewrite (nth_skipn_nil _ _ Hn).
      exists (Ok (g, 0)). split; [cbn; now rewrite Nat.add_0_r | constructor].
Qed.

(** [parse] at a cursor is the reading of the lines from that cursor on. *)
Lemma parse_reads lines i r :
  parse stod lines i = shift i r <-> parse_rel stod (skipn i lines) r.
Proof.
  split.
  - intros H.
    destruct (proj1 (parse_while_rel_complete _ lines) i _
                (parse_fuel_enough stod lines i)) as (r' & Hr & Hrel).
    rewrite H in Hr. apply shift_inj in Hr. now subst.
  - intros H. now apply (proj1 parse_while_rel_sound _ _ H).
Qed.

Lemma parse_while_reads lines d g i r :
  parse_while stod lines d g i = shift i r <->
  while_rel stod d (skipn i lines) g r.
Proof.
  split.
  - intros H.
    destruct (proj2 (parse_while_rel_complete _ lines) d g i _
                (while_fuel_enough stod lines d g i)) as (r' & Hr & Hrel).
    rewrite H in Hr. apply shift_inj in Hr. now subst.
  - intros H. now apply (proj2 parse_while_rel_sound _ _ _ _ H).
Qed.

(** From cursor 0 the two coincide. *)
Lemma parse_reads_0 lines r :
  parse stod lines 0 = r <-> parse_rel stod lines r.
Proof.
  rewrite <- (shift_0 r) at 1. apply (parse_reads lines 0 r).
Qed.

(** The reading is a function of the lines. *)
Lemma parse_rel_fun ls r1 r2 :
  parse_rel stod ls r1 -> parse_rel stod ls r2 -> r1 = r2.
Proof.
  intros H1 H2. apply parse_reads_0 in H1, H2. congruence.
Qed.

Lemma while_rel_fun d ls g r1 r2 :
  while_rel stod d ls g r1 -> while_rel stod d ls g r2 -> r1 = r2.
Proof.
  intros H1 H2.
  apply (parse_while_reads ls d g 0) in H1, H2.
  rewrite !shift_0 in *. congruence.
Qed.

(** Every line sequence has a reading. *)
Lemma parse_rel_total ls : exists r, parse_rel stod ls r.
Proof. exists (parse stod ls 0). now apply parse_reads_0. Qed.

(** A reading consumes at most the lines it is given, and at least one
    when there is one. *)
Lemma parse_while_rel_bounds :
  (forall ls r, parse_rel stod ls r ->
     forall c n, r = Ok (c, n) ->
     n <= List.length ls /\ (ls <> [] -> 1 <= n)) /\
  (forall d ls g r, while_rel stod d ls g r ->
     forall g' n, r = Ok (g', n) -> n <= List.length ls).
Proof.
  apply parse_while_rel_ind.
  - intros c n H. injection H as <- <-. cbn. split; [lia | congruence].
  - intros rest [[c' n'] | e] _ IH c n H; [| discriminate].
    injection H as <- <-. destruct (IH _ _ eq_refl). cbn. split; lia.
  - intros line rest [[g' n'] | e] _ _ _ IH c n H; [| discriminate].
    injection H as <- <-. pose proof (IH _ _ eq_refl). cbn. split; lia.
  - intros line rest _ _ c n H. unfold single_record in H.
    assert (n = 1) as ->.
    { destruct (is_game_record line); [| congruence].
      destruct (2 <=? _)%nat; [| congruence].
      destruct (stod _); [congruence | discriminate]. }
    cbn. split; lia.
  - intros d g g' n H. injection H as <- <-. cbn. lia.
  - intros d rest g [[g1 n1] | e] _ IH g' n H; [| discriminate].
    injection H as <- <-. pose proof (IH _ _ eq_refl). cbn. lia.
  - intros d line rest g _ _ g' n H. injection H as <- <-. cbn. lia.
  - intros d line rest g child n res _ _ _ IHp _ IHw g' m H.
    destruct res as [[g1 n1] | e]; [| discriminate].
    injection H as <- <-.
    destruct (IHp _ _ eq_refl) as [Hn _].
    pose proof (IHw _ _ eq_refl) as Hw.
    rewrite length_skipn in Hw. lia.
  - discriminate.
  - intros d line rest g [[g1 n1] | e] _ _ _ IH g' n H; [| discriminate].
    injection H as <- <-. pose proof (IH _ _ eq_refl). cbn. lia.
Qed.

End Agreement.

(* ------------------------------------------------------------------ *)
(** ** Aggregation and structural queries *)

Lemma collect_games_flat children : forall games,
  forallb (fun c => negb (isGroup c)) children = true ->
  fold_left (fun games child =>
               if isGroup child then games ++ getAllGames child
               else games ++ [child]) children games
  = games ++ children.
Proof.
  induction children as [| c cs IH]; intros games H; cbn in *.
  - now rewrite app_nil_r.
  - apply andb_prop in H as [Hc Hcs].
    destruct (isGroup c); [discriminate |].
    rewrite (IH _ Hcs), <- app_assoc. reflexivity.
Qed.

Lemma collect_games_acc children : forall games,
  fold_left (fun games child =>
               if isGroup child then games ++ getAllGames child
               else games ++ [child]) children games
  = games ++ flat_map (fun child => if isGroup child then getAllGames child
                                     else [child]) children.
Proof.
  induction children as [| c cs IH]; intros games; cbn.
  - now rewrite app_nil_r.
  - rewrite IH. destruct (isGroup c); now rewrite <- app_assoc.
Qed.

Lemma push_children_acc (children : list Component) : forall result,
  fold_left (fun result child => result ++ [child]) children result
  = result ++ children.
Proof.
  induction children as [| c cs IH]; intros result; cbn.
  - now rewrite app_nil_r.
  - rewrite IH, <- app_assoc. reflexivity.
Qed.

Lemma build_acc items : forall n acc,
  fold_left add items (Group n acc) = Group n (acc ++ items).
Proof.
  induction items as [| c cs IH]; intros n acc; cbn.
  - now rewrite app_nil_r.
  - rewrite IH, <- app_assoc. reflexivity.
Qed.

Lemma filter_flat_map {A B : Type} (p : B -> bool) (f : A -> list B) l :
  filter p (flat_map f l) = flat_map (fun x => filter p (f x)) l.
Proof.
  induction l as [| x l IH]; cbn; [reflexivity |].
  now rewrite filter_app, IH.
Qed.

Lemma getAllGames_preorder g :
  isGroup g = true ->
  getAllGames g = filter (fun c => negb (isGroup c)) (preorder g).
Proof.
  induction g as [n r | n cs IH] using Component_ind'; [discriminate |].
  intros _. cbn [getAllGames preorder filter isGroup negb].
  rewrite collect_games_acc, filter_flat_map. cbn [app].
  induction IH as [| c cs Hc _ IHcs]; cbn; [reflexivity |].
  rewrite IHcs. f_equal.
  destruct c as [m r | m ds]; [reflexivity |].
  now apply Hc.
Qed.

Lemma add_revenues_app total games more :
  add_revenues total (games ++ more)
  = add_revenues (add_revenues total games) more.
Proof. unfold add_revenues. apply fold_left_app. Qed.

(** The loop of [getRevenue] over children in which regrouping is exact
    adds up the games below them, one by one. *)
Lemma revenue_loop_regroups children :
  Forall (fun c => regroups c -> isGroup c = true ->
                   getRevenue c = sum_revenue (getAllGames c)) children ->
  forall total,
    (fix go (total : float) (cs : list Component) {struct cs} : Prop :=
       match cs with
       | [] => True
       | c :: rest =>
           regroups c
           /\ match c with
              | Game _ _ => True
              | Group _ _ =>
                  (total + sum_revenue (getAllGames c))%float
                  = add_revenues total (getAllGames c)
              end
           /\ go (add_revenues total
                    (if isGroup c then getAllGames c else [c])) rest
       end) total children ->
    fold_left (fun t c => (t + getRevenue c)%float) children total
    = add_revenues total
        (flat_map (fun child => if isGroup child then getAllGames child
                                else [child]) children).
Proof.
  induction 1 as [| c cs Hc _ IH]; intros total Hgo; [reflexivity |].
  destruct Hgo as (Hrc & Hcond & Hrest).
  cbn [fold_left flat_map]. rewrite add_revenues_app, <- (IH _ Hrest). f_equal.
  destruct c as [m r | m ds]; [reflexivity |].
  cbn [isGroup]. now rewrite (Hc Hrc eq_refl).
Qed.

Lemma revenue_regroups g :
  regroups g -> isGroup g = true ->
  getRevenue g = sum_revenue (getAllGames g).
Proof.
  induction g as [n r | n cs IH] using Component_ind'; [discriminate |].
  intros Hr _. cbn [getRevenue getAllGames]. rewrite collect_games_acc.
  cbn [app]. now apply revenue_loop_regroups.
Qed.

Lemma flat_children_regroup children : forall total,
  forallb (fun c => negb (isGroup c)) children = true ->
  (fix go (total : float) (cs : list Component) {struct cs} : Prop :=
     match cs with
     | [] => True
     | c :: rest =>
         regroups c
         /\ match c with
            | Game _ _ => True
            | Group _ _ =>
                (total + sum_revenue (getAllGames c))%float
                = add_revenues total (getAllGames c)
            end
         /\ go (add_revenues total
                  (if isGroup c then getAllGames c else [c])) rest
     end) total children.
Proof.
  induction children as [| c cs IH]; intros total H; [exact I |].
  cbn [forallb] in H. apply andb_prop in H as [Hc Hcs].
  destruct c as [m r | m ds]; [| discriminate].
  repeat split. now apply IH.
Qed.

(** C2, as amended. For every group, nested or not, [getRevenue] is the
    sum of [getRevenue] over the sequence [getAllGames] returns, added from
    left to right starting at 0.0, provided regrouping is exact in the
    tree: wherever a sub-group is met, adding the sum of its games to the
    running total gives the same [double] as adding its games one by one.
    That is so whenever all children are games. An empty group has
    revenue 0.0. *)
Theorem C2_revenue_is_sum_of_games (n : string) (children : list Component) :
  (regroups (Group n children) ->
   getRevenue (Group n children)
   = sum_revenue (getAllGames (Group n children)))
  /\ (forallb (fun c => negb (isGroup c)) children = true ->
      regroups (Group n children))
  /\ getRevenue (Group n []) = 0%float.
Proof.
  split; [| split; [| reflexivity]].
  - intros H. now apply revenue_regroups.
  - intros H. cbn [regroups]. now apply flat_children_regroup.
Qed.

(** The scenario of the specification, with its two sub-groups, and a
    group of games only. *)
Lemma C2_revenue_is_sum_of_games_witness :
  let root := Group "Casino"
                [Group "Table Games" [Game "Blackjack" 100; Game "Roulette" 50.5];
                 Group "Slot Games" [Game "Mega Joker" 0]] in
  regroups root
  /\ getRevenue root = sum_revenue (getAllGames root)
  /\ sum_revenue (getAllGames root) = 150.5%float
  /\ getRevenue (Group "Table Games" [Game "Blackjack" 100; Game "Roulette" 50.5])
     = sum_revenue [Game "Blackjack" 100; Game "Roulette" 50.5].
Proof.
  intros root.
  assert (Hr : regroups root) by (vm_compute; repeat split).
  split; [exact Hr |]. split; [| split].
  - apply (proj1 (C2_revenue_is_sum_of_games "Casino"
                    [Group "Table Games" [Game "Blackjack" 100; Game "Roulette" 50.5];
                     Group "Slot Games" [Game "Mega Joker" 0]])).
    exact Hr.
  - reflexivity.
  - destruct (C2_revenue_is_sum_of_games "Table Games"
                [Game "Blackjack" 100; Game "Roulette" 50.5]) as (H1 & H2 & _).
    apply H1, H2. reflexivity.
Defined.

(** C2, as stated, fails: with a nested group the revenue of the root is
    0.1 + (0.2 + 0.3), the sum over [getAllGames] is (0.1 + 0.2) + 0.3, and
    the two [double]s differ. *)
Lemma C2_nested_sum_differs :
  let g := Group "Casino"
             [Game "Blackjack" 0.1;
              Group "Slot Games" [Game "Mega Joker" 0.2; Game "Lucky 7" 0.3]] in
  getRevenue g <> sum_revenue (getAllGames g).
Proof.
  vm_compute. intros H. discriminate H.
Qed.

(** The scenario of the specification: the total is 150.5, the games
    come in the order of the text, and 25.0 more on Blackjack gives 175.5. *)
Example casino_scenario :
  let root := Group "Casino"
                [Group "Table Games" [Game "Blackjack" 100; Game "Roulette" 50.5];
                 Group "Slot Games" [Game "Mega Joker" 0]] in
  getRevenue root = 150.5%float /\
  map getName (getAllGames root) = ["Blackjack"; "Roulette"; "Mega Joker"] /\
  getRevenue (Group "Casino"
                [Group "Table Games" [addRevenue (Game "Blackjack" 100) 25;
                                      Game "Roulette" 50.5];
                 Group "Slot Games" [Game "Mega Joker" 0]]) = 175.5%float.
Proof. repeat split. Qed.

(** C8. [add] appends at the end, so [getChildren] lists the direct
    children in the order they were added; [getAllGames] lists the games of
    the subtree in pre-order, that is depth-first from left to right. *)
Theorem C8_children_and_games_in_order (n : string) (children : list Component)
                                        (c : Component) :
  getChildren (build n children) = children
  /\ getChildren (add (Group n children) c) = getChildren (Group n children) ++ [c]
  /\ getAllGames (Group n children)
     = filter (fun x => negb (isGroup x)) (preorder (Group n children)).
Proof.
  split; [| split].
  - unfold build. rewrite build_acc. cbn. now rewrite push_children_acc.
  - cbn. now rewrite !push_children_acc.
  - now apply getAllGames_preorder.
Qed.

(* ------------------------------------------------------------------ *)
(** ** Strings *)

Lemma sapp_assoc (a b c : string) : ((a ++ b) ++ c = a ++ (b ++ c))%string.
Proof. induction a as [| x a IH]; cbn; [reflexivity | now rewrite IH]. Qed.

Lemma sapp_nil_r (a : string) : (a ++ "" = a)%string.
Proof. induction a as [| x a IH]; cbn; [reflexivity | now rewrite IH]. Qed.

Lemma concat_join_head a b us :
  String.concat " " ((a ++ " " ++ b)%string :: us)
  = (a ++ " " ++ String.concat " " (b :: us))%string.
Proof.
  destruct us as [| v vs]; [reflexivity |].
  cbn [String.concat]. now rewrite !sapp_assoc.
Qed.

Lemma fold_join_concat ts : forall t,
  fold_left (fun acc part => (acc ++ " " ++ part)%string) ts t
  = String.concat " " (t :: ts).
Proof.
  induction ts as [| u us IH]; intros t; [reflexivity |].
  cbn [fold_left]. rewrite IH. apply concat_join_head.
Qed.

(** The name of a leaf record is its tokens but the last, joined by
    single spaces. *)
Lemma gameName_concat parts :
  2 <= List.length parts ->
  gameName parts = String.concat " " (removelast parts).
Proof.
  destruct parts as [| t [| u us]]; cbn [List.length]; try lia.
  intros _. unfold gameName. cbn [tl hd]. rewrite fold_join_concat.
  reflexivity.
Qed.

Lemma game_record_not_group line :
  is_game_record line = true -> is_group_record line = false.
Proof.
  unfold is_game_record, is_group_record, substr0.
  intros H. apply String.eqb_eq in H. apply String.eqb_neq.
  destruct (trimSpaces line) as [| c1 [| c2 s]]; cbn [substring] in *;
    try discriminate.
  injection H as -> -> _. discriminate.
Qed.

Lemma game_record_not_empty line :
  is_game_record line = true -> empty line = false.
Proof. destruct line; [discriminate | reflexivity]. Qed.

(* ------------------------------------------------------------------ *)
(** ** Records of the text format *)

(** C3. A line whose trimmed form begins with "GAME " is tokenized after
    the prefix. With two tokens or more the result is a game whose
    revenue is what [std::stod] reads in the last token (the exception of
    [std::stod] escapes when it reads none) and whose name is the other
    tokens joined by single spaces; with fewer tokens there is no node.
    In both cases the cursor moves past the line. *)
Theorem C3_leaf_record (stod : string -> result float)
                       (lines : list string) (index : nat) (line : string) :
  nth_error lines index = Some line ->
  is_game_record line = true ->
  parse stod lines index =
  (if (2 <=? List.length (leaf_parts line))%nat then
     match stod (last (leaf_parts line) EmptyString) with
     | Ok revenue =>
         Ok (Some (Game (String.concat " " (removelast (leaf_parts line)))
                        revenue),
             index + 1)
     | Throw e => Throw e
     end
   else Ok (None, index + 1)).
Proof.
  intros Hn Hg.
  rewrite parse_eq, Hn, (game_record_not_empty _ Hg),
    (game_record_not_group _ Hg).
  unfold single_record. rewrite Hg.
  destruct (2 <=? _)%nat eqn:Hlen; [| reflexivity].
  apply Nat.leb_le in Hlen. rewrite (gameName_concat _ Hlen).
  destruct (stod _); reflexivity.
Qed.

(** The scenario of the specification: "GAME Lucky 7 Slot 10". *)
Lemma C3_leaf_record_witness :
  parse Libc.stod ["GAME Lucky 7 Slot 10"] 0
  = Ok (Some (Game "Lucky 7 Slot" 10), 1)
  /\ parse Libc.stod ["GROUP Casino"; "  GAME Lucky"] 1 = Ok (None, 2).
Proof.
  split.
  - apply (C3_leaf_record Libc.stod ["GAME Lucky 7 Slot 10"] 0
             "GAME Lucky 7 Slot 10"); reflexivity.
  - apply (C3_leaf_record Libc.stod ["GROUP Casino"; "  GAME Lucky"] 1
             "  GAME Lucky"); reflexivity.
Defined.

Lemma In_skipn {A : Type} (x : A) n l : In x (skipn n l) -> In x l.
Proof.
  intros H. rewrite <- (firstn_skipn n l). apply in_or_app. now right.
Qed.

Lemma single_record_consumes stod line c n :
  single_record stod line = Ok (c, n) -> n = 1.
Proof.
  unfold single_record.
  destruct (is_game_record line); [| congruence].
  destruct (2 <=? _)%nat; [| congruence].
  destruct (stod _); [congruence | discriminate].
Qed.

Lemma single_record_throws stod line e :
  single_record stod line = Throw e ->
  is_game_record line = true /\
  2 <= List.length (leaf_parts line) /\
  stod (last (leaf_parts line) EmptyString) = Throw e.
Proof.
  unfold single_record.
  destruct (is_game_record line); [| discriminate].
  destruct (2 <=? _)%nat eqn:Hlen; [| discriminate].
  apply Nat.leb_le in Hlen.
  destruct (stod _) as [r | e'] eqn:Hs; [discriminate |].
  intros H. injection H as ->. auto.
Qed.

Section Anomalies.

Variable stod : string -> result float.

Lemma while_rel_total d ls g : exists r, while_rel stod d ls g r.
Proof.
  exists (parse_while stod ls d g 0).
  apply (parse_while_reads stod ls d g 0). now rewrite shift_0.
Qed.

(** An exception that escapes a reading is the one [stod] throws on a
    leaf record among the lines read. *)
Lemma throw_origin_rel :
  (forall ls r, parse_rel stod ls r ->
     forall e, r = Throw e ->
     exists l, In l ls /\ single_record stod l = Throw e) /\
  (forall d ls g r, while_rel stod d ls g r ->
     forall e, r = Throw e ->
     exists l, In l ls /\ single_record stod l = Throw e).
Proof.
  apply parse_while_rel_ind.
  - discriminate.
  - intros rest [[c n] | e'] _ IH e H; [discriminate |].
    cbn in H. injection H as <-.
    destruct (IH _ eq_refl) as (l & Hin & Hl).
    exists l. split; [now right | exact Hl].
  - intros line rest [[c n] | e'] _ _ _ IH e H; [discriminate |].
    cbn in H. injection H as <-.
    destruct (IH _ eq_refl) as (l & Hin & Hl).
    exists l. split; [now right | exact Hl].
  - intros line rest _ _ e H. exists line. split; [now left | exact H].
  - discriminate.
  - intros d rest g [[c n] | e'] _ IH e H; [discriminate |].
    cbn in H. injection H as <-.
    destruct (IH _ eq_refl) as (l & Hin & Hl).
    exists l. split; [now right | exact Hl].
  - discriminate.
  - intros d line rest g child n [[c m] | e'] _ _ _ _ _ IH e H; [discriminate |].
    cbn in H. injection H as <-.
    destruct (IH _ eq_refl) as (l & Hin & Hl). exists l.
    split; [eapply In_skipn; exact Hin | exact Hl].
  - intros d line rest g e' _ _ _ IH e H. injection H as <-.
    now apply IH.
  - intros d line rest g [[c n] | e'] _ _ _ IH e H; [discriminate |].
    cbn in H. injection H as <-.
    destruct (IH _ eq_refl) as (l & Hin & Hl).
    exists l. split; [now right | exact Hl].
Qed.

Lemma throw_origin lines j e :
  parse stod lines j = Throw e ->
  exists l, In l lines /\ is_game_record l = true /\
            2 <= List.length (leaf_parts l) /\
            stod (last (leaf_parts l) EmptyString) = Throw e.
Proof.
  intros H.
  assert (Hr : parse stod lines j = shift j (Throw e)) by exact H.
  apply parse_reads in Hr.
  destruct (proj1 throw_origin_rel _ _ Hr e eq_refl) as (l & Hin & Hl).
  exists l. split; [eapply In_skipn; exact Hin |].
  now apply single_record_throws.
Qed.

(** Leading empty lines are passed over by [parse]. *)
Lemma parse_leading_blanks lines i :
  (forall k, k < i -> nth_error lines k = Some EmptyString) ->
  parse stod lines 0 = parse stod lines i.
Proof.
  induction i as [| i IH]; intros H; [reflexivity |].
  rewrite IH by (intros k Hk; apply H; lia).
  rewrite (parse_eq stod lines i), (H i) by lia. cbn [empty].
  now rewrite Nat.add_1_r.
Qed.

End Anomalies.

(** Text without a newline, then a newline: [getline] reads one line. *)
Lemma getlines_from_plain s : forall cur rest,
  no_char is_newline s = true ->
  getlines_from cur (s ++ String newline rest)
  = (cur ++ s)%string :: getlines_from EmptyString rest.
Proof.
  induction s as [| c s IH]; intros cur rest H; cbn in *.
  - now rewrite sapp_nil_r.
  - apply andb_prop in H as [Hc Hs].
    destruct (is_newline c); [discriminate |].
    rewrite (IH _ _ Hs), sapp_assoc. reflexivity.
Qed.

(** C6, as amended. A non-empty line that is neither a group record nor
    a leaf record with two tokens yields no node and moves the cursor by
    one; inside a group, at child depth or deeper, the loop goes on with the
    next line; an exception never comes from such a line, it is always the
    one [std::stod] throws on the last token of a leaf record. When such a
    line is the first non-empty line of the input, [parse] from cursor 0
    yields no node and [loadFromFile] returns [nullptr]. *)
Theorem C6_anomalies_are_skipped (stod : string -> result float)
                                 (lines : list string) (index : nat) (line : string) :
  nth_error lines index = Some line ->
  empty line = false ->
  is_group_record line = false ->
  is_game_record line = false \/ List.length (leaf_parts line) < 2 ->
  parse stod lines index = Ok (None, index + 1)
  /\ (forall d group, d < getDepth line ->
        parse_while stod lines d group index
        = parse_while stod lines d group (index + 1))
  /\ (forall j e, parse stod lines j = Throw e ->
        exists l, In l lines /\ is_game_record l = true /\
                  2 <= List.length (leaf_parts l) /\
                  stod (last (leaf_parts l) EmptyString) = Throw e)
  /\ ((forall k, k < index -> nth_error lines k = Some EmptyString) ->
        parse stod lines 0 = Ok (None, index + 1)
        /\ forall text, getlines text = lines ->
             loadFromFile stod (Some text) = Ok None).
Proof.
  intros Hn He Hg Hrec.
  assert (Hp : parse stod lines index = Ok (None, index + 1)).
  { rewrite parse_eq, Hn, He, Hg. unfold single_record.
    destruct Hrec as [-> | Hlen]; [reflexivity |].
    destruct (is_game_record line); [| reflexivity].
    apply Nat.leb_gt in Hlen. now rewrite Hlen. }
  split; [exact Hp |]. split; [| split].
  - intros d group Hd. rewrite parse_while_eq, Hn, He.
    apply Nat.leb_gt in Hd. rewrite Hd.
    destruct (getDepth line =? d + 1)%nat; [| reflexivity].
    now rewrite Hp.
  - intros j e. apply throw_origin.
  - intros Hblank.
    assert (H0 : parse stod lines 0 = Ok (None, index + 1)).
    { now rewrite (parse_leading_blanks stod lines index Hblank). }
    split; [exact H0 |].
    intros text <-. unfold loadFromFile. now rewrite H0.
Qed.

Lemma C6_anomalies_are_skipped_witness :
  parse Libc.stod ["GROUP Casino"; "  # slots"; "  GAME Lucky 7 10"] 1
  = Ok (None, 2)
  /\ parse_while Libc.stod ["GROUP Casino"; "  # slots"; "  GAME Lucky 7 10"]
       0 (Group "Casino" []) 1
     = Ok (Group "Casino" [Game "Lucky 7" 10], 3).
Proof.
  pose proof (C6_anomalies_are_skipped Libc.stod
                ["GROUP Casino"; "  # slots"; "  GAME Lucky 7 10"] 1
                "  # slots" eq_refl eq_refl eq_refl (or_introl eq_refl))
    as (Hp & Hw & _).
  split; [exact Hp |].
  rewrite (Hw 0 (Group "Casino" []) (Nat.lt_0_succ 0)). reflexivity.
Defined.

(** C6, as stated, fails: an unrecognized first line makes the whole load
    fail, although the same text without that line loads. *)
Lemma C6_unrecognized_first_line_fails :
  loadFromFile Libc.stod
    (Some (unlines ["# casino"; "GROUP Casino"; "  GAME Blackjack 100"]))
  = Ok None
  /\ loadFromFile Libc.stod
       (Some (unlines ["GROUP Casino"; "  GAME Blackjack 100"]))
     = Ok (Some (Group "Casino" [Game "Blackjack" 100])).
Proof. split; reflexivity. Qed.

(* ------------------------------------------------------------------ *)
(** ** The loop of a group record *)

Lemma skipn_remove_nth {A : Type} (l : list A) i :
  i < List.length l ->
  skipn i (firstn i l ++ skipn (i + 1) l) = skipn (i + 1) l.
Proof.
  intros H. rewrite skipn_app, length_firstn, Nat.min_l by lia.
  rewrite Nat.sub_diag, skipn_all2 by (rewrite length_firstn; lia).
  reflexivity.
Qed.

Section Extent.

Variable stod : string -> result float.

(** What a call on a non-empty line, and what a loop, goes over: the
    loop at depth [d] goes over empty lines and lines deeper than [d], and
    stops at the end or in front of a non-empty line that is not deeper; a
    call on a group record goes over the record and what its loop goes
    over, a call on another line goes over that line only. *)
Lemma extent_rel :
  (forall ls r, parse_rel stod ls r ->
     forall line rest c n,
       ls = line :: rest -> empty line = false -> r = Ok (c, n) ->
       (forall k, 1 <= k < n ->
          exists l, nth_error ls k = Some l /\
                    (empty l = true \/ getDepth line < getDepth l))
       /\ (is_group_record line = true ->
           (exists children,
              c = Some (Group (substr_from 6 (trimSpaces line)) children))
           /\ forall l, nth_error ls n = Some l ->
                        empty l = false /\ getDepth l <= getDepth line)
       /\ (is_group_record line = false -> n = 1)) /\
  (forall d ls g r, while_rel stod d ls g r ->
     forall name cs g' n,
       g = Group name cs -> r = Ok (g', n) ->
       (exists more, g' = Group name (cs ++ more))
       /\ (forall k, k < n ->
             exists l, nth_error ls k = Some l /\
                       (empty l = true \/ d < getDepth l))
       /\ (forall l, nth_error ls n = Some l ->
             empty l = false /\ getDepth l <= d)).
Proof.
  apply parse_while_rel_ind.
  - discriminate.
  - intros rest res _ _ line rest' c n H He. injection H as <- _.
    discriminate.
  - intros line rest [[g n1] | e] He Hg _ IH line' rest' c n H _ Hr;
      [| discriminate].
    injection H as <- <-. injection Hr as <- <-.
    destruct (IH _ _ _ _ eq_refl eq_refl) as ((more & Hmore) & Hk & Hn).
    split; [| split].
    + intros k [Hk1 Hk2]. destruct k as [| k]; [lia |].
      cbn [nth_error]. apply Hk. lia.
    + intros _. split; [exists ([] ++ more); now rewrite Hmore |].
      cbn [Nat.add nth_error]. exact Hn.
    + congruence.
  - intros line rest He Hg line' rest' c n H _ Hr. injection H as <- <-.
    apply single_record_consumes in Hr as ->.
    split; [intros k Hk; lia |]. split; [congruence | reflexivity].
  - intros d g name cs g' n -> H. injection H as <- <-.
    split; [exists []; now rewrite app_nil_r |].
    split; [intros k Hk; lia | discriminate].
  - intros d rest g [[g1 n1] | e] _ IH name cs g' n Hg H; [| discriminate].
    injection H as <- <-.
    destruct (IH _ _ _ _ Hg eq_refl) as (Hmore & Hk & Hn).
    split; [exact Hmore |]. split.
    + intros [| k] Hlt; [exists EmptyString; auto |].
      cbn [nth_error]. apply Hk. lia.
    + exact Hn.
  - intros d line rest g He Hd name cs g' n -> H. injection H as <- <-.
    split; [exists []; now rewrite app_nil_r |].
    split; [intros k Hk; lia |].
    intros l Hl. injection Hl as <-. auto.
  - intros d line rest g child n [[g1 n1] | e] He Hd Hp IHp _ IHw
           name cs g' m -> H; [| discriminate].
    injection H as <- <-.
    destruct (IHp _ _ _ _ eq_refl He eq_refl) as (Hk1 & _ & _).
    destruct (proj1 (parse_while_rel_bounds stod) _ _ Hp _ _ eq_refl)
      as [_ Hn]. specialize (Hn ltac:(discriminate)).
    assert (Hadd : exists cs', add_if (Group name cs) child = Group name cs'
                               /\ exists one, cs' = cs ++ one).
    { destruct child as [c |]; cbn [add_if add].
      - exists (cs ++ [c]). split; [reflexivity | now exists [c]].
      - exists cs. split; [reflexivity | exists []; now rewrite app_nil_r]. }
    destruct Hadd as (cs' & Hcs' & one & ->).
    destruct (IHw _ _ _ _ Hcs' eq_refl) as ((more & ->) & Hk2 & Hn2).
    split; [exists (one ++ more); now rewrite app_assoc |]. split.
    + intros k Hlt. destruct (Nat.eq_dec k 0) as [-> | Hk0].
      * exists line. split; [reflexivity | right; lia].
      * destruct (Nat.lt_ge_cases k n) as [Hkn | Hkn].
        -- destruct (Hk1 k ltac:(lia)) as (l & Hl & [Hl1 | Hl2]);
             exists l; (split; [exact Hl |]); [now left | right; lia].
        -- destruct (Hk2 (k - n) ltac:(lia)) as (l & Hl & Hl').
           rewrite nth_error_skipn in Hl.
           replace (n + (k - n)) with k in Hl by lia.
           now exists l.
    + intros l Hl. apply Hn2. now rewrite nth_error_skipn.
  - discriminate.
  - intros d line rest g [[g1 n1] | e] He Hd _ IH name cs g' n Hg H;
      [| discriminate].
    injection H as <- <-.
    destruct (IH _ _ _ _ Hg eq_refl) as (Hmore & Hk & Hn).
    split; [exact Hmore |]. split.
    + intros [| k] Hlt; [exists line; split; [reflexivity | right; lia] |].
      cbn [nth_error]. apply Hk. lia.
    + exact Hn.
Qed.

(** One call of [parse] on a non-empty line consumes that line and, for a
    group record, the whole run of lines below it. *)
Lemma parse_extent lines index line node index' :
  nth_error lines index = Some line ->
  empty line = false ->
  parse stod lines index = Ok (node, index') ->
  index < index' <= List.length lines
  /\ (forall k, index < k < index' ->
        exists l, nth_error lines k = Some l /\
                  (empty l = true \/ getDepth line < getDepth l))
  /\ (is_group_record line = true ->
      (exists children,
         node = Some (Group (substr_from 6 (trimSpaces line)) children))
      /\ forall l, nth_error lines index' = Some l ->
                   empty l = false /\ getDepth l <= getDepth line)
  /\ (is_group_record line = false -> index' = index + 1).
Proof.
  intros Hn He Hp.
  pose proof (nth_skipn_cons _ _ _ Hn) as Hs.
  assert (Hr : parse stod lines index = shift index (Ok (node, index' - index))
               /\ index <= index').
  { pose proof (parse_fuel_enough stod lines index) as Hf. rewrite Hp in Hf.
    apply (proj1 (fuel_progress stod _ lines)) in Hf as [Hle _].
    split; [| exact Hle]. rewrite Hp. cbn. f_equal. f_equal. lia. }
  destruct Hr as [Hr Hle]. apply parse_reads in Hr.
  destruct (proj1 (parse_while_rel_bounds stod) _ _ Hr _ _ eq_refl)
    as [Hb1 Hb2].
  rewrite length_skipn in Hb1. rewrite Hs in Hb2.
  specialize (Hb2 ltac:(discriminate)).
  assert (Hlt : index < List.length lines) by (apply nth_error_Some; congruence).
  destruct (proj1 extent_rel _ _ Hr _ _ _ _ Hs He eq_refl) as (Hk & Hg & Hng).
  split; [lia |]. split; [| split].
  - intros k [Hk1 Hk2].
    destruct (Hk (k - index) ltac:(lia)) as (l & Hl & Hl').
    rewrite nth_error_skipn in Hl.
    replace (index + (k - index)) with k in Hl by lia. now exists l.
  - intros Hgr. destruct (Hg Hgr) as [Hc Hstop]. split; [exact Hc |].
    intros l Hl. apply Hstop. rewrite nth_error_skipn.
    now replace (index + (index' - index)) with index' by lia.
  - intros Hgr. specialize (Hng Hgr). lia.
Qed.

End Extent.

(** C4. [parse] on a group record at depth [d] makes an empty group of
    the name that follows "GROUP " and runs its loop from the next line;
    what the loop returns is what [parse] returns. In that loop, at a
    non-empty line: a line of depth at most [d] ends the loop and is not
    consumed; at depth [d + 1] one call of [parse] reads one child, which
    is added when there is one, and the loop goes on where that call
    stopped: one line further for a line that is not a group record, and
    for a group record past every following line that is empty or deeper
    than [d + 1], in front of the first non-empty line that is not (or at
    the end); a line deeper than [d + 1] is passed over, and the result is
    the one obtained without that line, one line further. *)
Theorem C4_group_loop (stod : string -> result float) (lines : list string)
                      (d : nat) (group : Component) (index : nat) (line : string) :
  nth_error lines index = Some line ->
  empty line = false ->
  (is_group_record line = true ->
     parse stod lines index
     = as_node (parse_while stod lines (getDepth line)
                  (Group (substr_from 6 (trimSpaces line)) []) (index + 1)))
  /\ (getDepth line <= d ->
        parse_while stod lines d group index = Ok (group, index))
  /\ (getDepth line = d + 1 ->
        match parse stod lines index with
        | Ok (child, index') =>
            index < index' <= List.length lines
            /\ (forall k, index < k < index' ->
                  exists l, nth_error lines k = Some l /\
                            (empty l = true \/ d + 1 < getDepth l))
            /\ (is_group_record line = true ->
                  (exists children,
                     child = Some (Group (substr_from 6 (trimSpaces line))
                                         children))
                  /\ forall l, nth_error lines index' = Some l ->
                               empty l = false /\ getDepth l <= d + 1)
            /\ (is_group_record line = false -> index' = index + 1)
            /\ parse_while stod lines d group index
               = parse_while stod lines d (add_if group child) index'
        | Throw e => parse_while stod lines d group index = Throw e
        end)
  /\ (d + 1 < getDepth line ->
        parse_while stod lines d group index
        = parse_while stod lines d group (index + 1)
        /\ parse_while stod lines d group index
           = shift 1 (parse_while stod
                        (firstn index lines ++ skipn (index + 1) lines)
                        d group index)).
Proof.
  intros Hn He. split; [| split; [| split]].
  - intros Hg. now rewrite parse_eq, Hn, He, Hg.
  - intros Hd. rewrite parse_while_eq, Hn, He.
    apply Nat.leb_le in Hd. now rewrite Hd.
  - intros Hd. destruct (leb_depth_child _ _ Hd) as [H1 H2].
    rewrite (parse_while_eq stod lines d group index), Hn, He, H1, H2.
    destruct (parse stod lines index) as [[child index'] | e] eqn:Hp;
      [| reflexivity].
    destruct (parse_extent stod _ _ _ _ _ Hn He Hp) as (Hb & Hk & Hg & Hng).
    rewrite Hd in Hk, Hg.
    repeat (split; [assumption |]). reflexivity.
  - intros Hd. destruct (leb_depth_orphan _ _ Hd) as [H1 H2]. split.
    + now rewrite (parse_while_eq stod lines d group index), Hn, He, H1, H2.
    + destruct (while_rel_total stod d (skipn (index + 1) lines) group)
        as [res Hres].
      pose proof (nth_skipn_cons _ _ _ Hn) as Hs.
      assert (Hw : while_rel stod d (skipn index lines) group (shift 1 res)).
      { rewrite Hs. now apply WR_orphan. }
      apply parse_while_reads in Hw. rewrite Hw.
      rewrite <- (skipn_remove_nth lines index (nth_error_lt _ _ _ Hn)) in Hres.
      apply parse_while_reads in Hres. rewrite Hres.
      rewrite !shift_shift. f_equal. lia.
Qed.

Lemma C4_group_loop_witness :
  let lines := ["GROUP Casino"; "  GROUP Table Games"; "    GAME Blackjack 100";
                ""; "      GAME Orphan 1"; "  GAME Roulette 50.5";
                "GROUP Other"] in
  parse Libc.stod lines 0
  = Ok (Some (Group "Casino"
                [Group "Table Games" [Game "Blackjack" 100];
                 Game "Roulette" 50.5]), 6)
  /\ parse_while Libc.stod lines 0 (Group "Casino" []) 6
     = Ok (Group "Casino" [], 6)
  /\ (1 < 5 <= 7
      /\ parse_while Libc.stod lines 0 (Group "Casino" []) 1
         = parse_while Libc.stod lines 0
             (Group "Casino" [Group "Table Games" [Game "Blackjack" 100]]) 5)
  /\ parse_while Libc.stod lines 1 (Group "Table Games" []) 4
     = shift 1 (parse_while Libc.stod
                  ["GROUP Casino"; "  GROUP Table Games";
                   "    GAME Blackjack 100"; ""; "  GAME Roulette 50.5";
                   "GROUP Other"]
                  1 (Group "Table Games" []) 4).
Proof.
  intros lines.
  pose proof (C4_group_loop Libc.stod lines 0 (Group "Casino" []) 0
                "GROUP Casino" eq_refl eq_refl) as (H0 & _).
  pose proof (C4_group_loop Libc.stod lines 0 (Group "Casino" []) 6
                "GROUP Other" eq_refl eq_refl) as (_ & H6 & _).
  pose proof (C4_group_loop Libc.stod lines 0 (Group "Casino" []) 1
                "  GROUP Table Games" eq_refl eq_refl) as (_ & _ & H1 & _).
  pose proof (C4_group_loop Libc.stod lines 1 (Group "Table Games" []) 4
                "      GAME Orphan 1" eq_refl eq_refl) as (_ & _ & _ & H4).
  specialize (H0 eq_refl). specialize (H6 (Nat.le_0_l 0)).
  specialize (H1 eq_refl).
  assert (Hd : 1 + 1 < getDepth "      GAME Orphan 1") by (vm_compute; lia).
  destruct (H4 Hd) as [_ H4'].
  assert (Hp : parse Libc.stod lines 1
               = Ok (Some (Group "Table Games" [Game "Blackjack" 100]), 5))
    by (vm_compute; reflexivity).
  rewrite Hp in H1. destruct H1 as (Hb & _ & _ & _ & Hw).
  split; [| split; [exact H6 | split; [split; [exact Hb | exact Hw] | exact H4']]].
  rewrite H0. vm_compute. reflexivity.
Defined.

(* ------------------------------------------------------------------ *)
(** ** Loading and saving *)

(** C5. When the file cannot be opened, or [parse] from cursor 0 yields
    no node, [loadFromFile] returns [nullptr]; menu entry 5 then reports the
    failure and keeps the tree it had. *)
Theorem C5_failed_load_keeps_tree (put_double : float -> string)
                                  (stod : string -> result float)
                                  (root : Component) (src : source) :
  src = None \/
  (exists text index, src = Some text /\
                      parse stod (getlines text) 0 = Ok (None, index)) ->
  loadFromFile stod src = Ok None
  /\ menu_load put_double stod root src
     = Ok (root, ("Failed to load file!" ++ String newline EmptyString)%string).
Proof.
  intros H.
  assert (Hl : loadFromFile stod src = Ok None).
  { destruct H as [-> | (text & index & -> & Hp)]; [reflexivity |].
    unfold loadFromFile. now rewrite Hp. }
  split; [exact Hl |].
  unfold menu_load. now rewrite Hl.
Qed.

Lemma C5_failed_load_keeps_tree_witness :
  let root := Group "Casino Games" [Group "Slot Games" [Game "Mega Joker" 0]] in
  (loadFromFile Libc.stod None = Ok None
   /\ menu_load Libc.put_double Libc.stod root None
      = Ok (root, ("Failed to load file!" ++ String newline EmptyString)%string))
  /\ (loadFromFile Libc.stod (Some (unlines ["GAME Lucky"])) = Ok None
      /\ menu_load Libc.put_double Libc.stod root (Some (unlines ["GAME Lucky"]))
         = Ok (root, ("Failed to load file!" ++ String newline EmptyString)%string)).
Proof.
  intros root. split.
  - apply (C5_failed_load_keeps_tree Libc.put_double Libc.stod root None).
    left. reflexivity.
  - apply (C5_failed_load_keeps_tree Libc.put_double Libc.stod root
             (Some (unlines ["GAME Lucky"]))).
    right. exists (unlines ["GAME Lucky"]), 1. split; reflexivity.
Defined.

(** C9, as amended. When the destination cannot be opened, [saveToFile]
    writes nothing, prints nothing and throws nothing, and the menu keeps
    its tree: the call returns like one that does nothing. Only a save
    that succeeds prints a line. *)
Theorem C9_unopened_destination_is_silent (put_double : float -> string)
                                          (root : Component) :
  saveToFile put_double root false = mkEffect None EmptyString None
  /\ menu_save put_double root false = (root, mkEffect None EmptyString None)
  /\ saveToFile put_double root true
     = mkEffect (Some (save put_double root 0))
                ("Saved to: casino.txt" ++ String newline EmptyString)%string
                None.
Proof. repeat split. Qed.

(** C9, as stated, fails: nothing reaches the caller when the destination
    cannot be opened, neither an exception nor a message. *)
Lemma C9_write_failure_not_surfaced :
  ~ surfaced (saveToFile Libc.put_double
                (Group "Casino Games" [Game "Mega Joker" 0]) false).
Proof.
  unfold surfaced. cbn. intros [H | H]; now apply H.
Qed.

(* ------------------------------------------------------------------ *)
(** ** Empty lines *)

Lemma nonblank_cons line rest :
  empty line = false -> nonblank (line :: rest) = line :: nonblank rest.
Proof. intros H. unfold nonblank. cbn. now rewrite H. Qed.

Lemma blank_inserted_nonblank original padded :
  blank_inserted original padded -> nonblank padded = nonblank original.
Proof.
  induction 1 as [| line original padded _ IH | original padded _ IH].
  - reflexivity.
  - unfold nonblank in *. cbn. now rewrite IH.
  - exact IH.
Qed.

Lemma aligned_node {A : Type} ls (r r' : result (A * nat)) :
  aligned ls r r' -> node_of r = node_of r'.
Proof.
  destruct r as [[a n] | e], r' as [[a' n'] | e']; cbn; try tauto.
  - now intros [-> _].
  - now intros ->.
Qed.

Lemma aligned_blank {A : Type} rest (r r' : result (A * nat)) :
  aligned rest r r' -> aligned (EmptyString :: rest) (shift 1 r) r'.
Proof.
  destruct r as [[a n] | e], r' as [[a' n'] | e']; cbn; tauto.
Qed.

Lemma aligned_cons {A : Type} line rest (r r' : result (A * nat)) :
  empty line = false ->
  aligned rest r r' -> aligned (line :: rest) (shift 1 r) (shift 1 r').
Proof.
  intros He.
  destruct r as [[a n] | e], r' as [[a' n'] | e']; cbn; try tauto.
  unfold nonblank. cbn. rewrite He. tauto.
Qed.

Section Blank.

Variable stod : string -> result float.

(** Reading a sequence and reading its non-empty lines give the same
    node. *)
Lemma nonblank_rel :
  (forall ls r, parse_rel stod ls r ->
     exists r', parse_rel stod (nonblank ls) r' /\ aligned ls r r') /\
  (forall d ls g r, while_rel stod d ls g r ->
     exists r', while_rel stod d (nonblank ls) g r' /\ aligned ls r r').
Proof.
  apply parse_while_rel_ind.
  - exists (Ok (None, 0)). split; [constructor | now cbn].
  - intros rest res _ (r' & Hr & Ha).
    exists r'. split; [exact Hr | now apply aligned_blank].
  - intros line rest res He Hg _ (r' & Hr & Ha).
    exists (as_node (shift 1 r')). rewrite (nonblank_cons _ _ He).
    split; [now constructor |].
    apply (aligned_cons line rest _ _ He) in Ha.
    destruct res as [[a n] | e], r' as [[a' n'] | e']; cbn in *; try tauto.
    destruct Ha as [-> Ha]. now split.
  - intros line rest He Hg.
    exists (single_record stod line). rewrite (nonblank_cons _ _ He).
    split; [now constructor |].
    destruct (single_record stod line) as [[c n] | e] eqn:Hs; cbn; [| reflexivity].
    apply single_record_consumes in Hs as ->. cbn.
    split; [reflexivity |]. unfold nonblank. cbn. now rewrite He.
  - intros d g. exists (Ok (g, 0)). split; [constructor | now cbn].
  - intros d rest g res _ (r' & Hr & Ha).
    exists r'. split; [exact Hr | now apply aligned_blank].
  - intros d line rest g He Hd. exists (Ok (g, 0)).
    rewrite (nonblank_cons _ _ He). split; [now constructor | now cbn].
  - intros d line rest g child n res He Hd _ (rp & Hrp & Hap) _ (rw & Hrw & Haw).
    pose proof (nonblank_cons line rest He) as Hnb.
    destruct rp as [[child' n'] | e]; cbn [aligned] in Hap; [| tauto].
    destruct Hap as [<- Hskip].
    rewrite Hskip in Hrw. rewrite Hnb in Hrp, Hrw, Hskip.
    exists (shift n' rw). rewrite Hnb at 1.
    split; [eapply WR_child; [exact He | exact Hd | exact Hrp | exact Hrw] |].
    destruct res as [[g1 m] | e], rw as [[g1' m'] | e'];
      cbn [aligned shift] in *; try tauto.
    destruct Haw as [-> Haw]. split; [reflexivity |].
    rewrite Hskip, !skipn_skipn in Haw. rewrite Hnb.
    replace (n + m) with (m + n) by lia.
    replace (n' + m') with (m' + n') by lia.
    exact Haw.
  - intros d line rest g e He Hd _ (rp & Hrp & Hap).
    destruct rp as [[child' n'] | e']; cbn in Hap; [tauto |]. subst e'.
    exists (Throw e). rewrite (nonblank_cons _ _ He) in *.
    split; [now apply WR_child_throw | reflexivity].
  - intros d line rest g res He Hd _ (r' & Hr & Ha).
    exists (shift 1 r'). rewrite (nonblank_cons _ _ He).
    split; [now apply WR_orphan | now apply aligned_cons].
Qed.

Lemma parse_nonblank lines :
  node_of (parse stod lines 0) = node_of (parse stod (nonblank lines) 0).
Proof.
  assert (H : parse_rel stod lines (parse stod lines 0))
    by now apply parse_reads_0.
  destruct (proj1 nonblank_rel _ _ H) as (r' & Hr & Ha).
  apply parse_reads_0 in Hr. rewrite Hr. now apply aligned_node in Ha.
Qed.

End Blank.

Lemma no_char_app p a b :
  no_char p (a ++ b)%string = no_char p a && no_char p b.
Proof.
  induction a as [| c a IH]; cbn; [reflexivity |].
  now rewrite IH, andb_assoc.
Qed.

Lemma getlines_from_plain_lines s : forall cur,
  no_char is_newline cur = true ->
  Forall (fun l => no_char is_newline l = true) (getlines_from cur s).
Proof.
  induction s as [| c s IH]; intros cur Hcur; cbn.
  - destruct (empty cur); constructor; auto.
  - destruct (is_newline c) eqn:Hc.
    + constructor; [exact Hcur | now apply IH].
    + apply IH. rewrite no_char_app, Hcur. cbn. now rewrite Hc.
Qed.

Lemma getlines_unlines ls :
  Forall (fun l => no_char is_newline l = true) ls ->
  getlines (unlines ls) = ls.
Proof.
  induction 1 as [| l ls Hl _ IH]; [reflexivity |].
  unfold getlines in *. cbn [unlines fold_right].
  rewrite getlines_from_plain by exact Hl. cbn [append]. f_equal. exact IH.
Qed.

Lemma blank_inserted_plain original padded :
  blank_inserted original padded ->
  Forall (fun l => no_char is_newline l = true) original ->
  Forall (fun l => no_char is_newline l = true) padded.
Proof.
  induction 1 as [| line original padded _ IH | original padded _ IH];
    intros H.
  - constructor.
  - inversion H; subst. constructor; auto.
  - constructor; auto.
Qed.

Lemma loadFromFile_node_of stod text :
  loadFromFile stod (Some text) = node_of (parse stod (getlines text) 0).
Proof.
  unfold loadFromFile. now destruct (parse stod (getlines text) 0) as [[c n] | e].
Qed.

(** Empty lines inserted anywhere in a line sequence do not change the
    node [parse] returns. *)
Lemma parse_blank_inserted stod original padded :
  blank_inserted original padded ->
  node_of (parse stod padded 0) = node_of (parse stod original 0).
Proof.
  intros H.
  rewrite (parse_nonblank stod padded), (parse_nonblank stod original).
  now rewrite (blank_inserted_nonblank _ _ H).
Qed.

(** Inserting empty lines is a case of inserting lines of white space. *)
Lemma blank_inserted_whitespace original padded :
  blank_inserted original padded -> whitespace_inserted original padded.
Proof.
  induction 1; [constructor | now constructor |].
  now apply WI_blank.
Qed.

(** C7, as amended. Empty lines (the lines [line.empty()] holds of)
    inserted anywhere between, before or after the lines of a saved tree
    do not change what is parsed and loaded. Where the cursor meets an
    empty line, in [parse] or in the loop of a group, it moves to the next
    line before any depth is looked at. *)
Theorem C7_blank_lines_ignored (put_double : float -> string)
                               (stod : string -> result float)
                               (T : Component) (padded : list string) :
  blank_inserted (getlines (save put_double T 0)) padded ->
  node_of (parse stod padded 0)
  = node_of (parse stod (getlines (save put_double T 0)) 0)
  /\ loadFromFile stod (Some (unlines padded))
     = loadFromFile stod (Some (save put_double T 0))
  /\ (forall index d group,
        nth_error padded index = Some EmptyString ->
        parse stod padded index = parse stod padded (index + 1)
        /\ parse_while stod padded d group index
           = parse_while stod padded d group (index + 1)).
Proof.
  intros H.
  pose proof (parse_blank_inserted stod _ _ H) as Hnode.
  split; [exact Hnode |]. split.
  - rewrite !loadFromFile_node_of, getlines_unlines; [exact Hnode |].
    apply (blank_inserted_plain _ _ H).
    now apply getlines_from_plain_lines.
  - intros index d group Hn. split.
    + now rewrite (parse_eq stod padded index), Hn.
    + now rewrite (parse_while_eq stod padded d group index), Hn.
Qed.

Lemma C7_blank_lines_ignored_witness :
  let T := Group "Casino" [Group "Table Games" [Game "Blackjack" 100];
                           Game "Mega Joker" 0] in
  let padded := [""; "GROUP Casino"; ""; "  GROUP Table Games"; "";
                 "    GAME Blackjack 100"; ""; ""; "  GAME Mega Joker 0"; ""] in
  node_of (parse Libc.stod padded 0) = Ok (Some T)
  /\ loadFromFile Libc.stod (Some (unlines padded)) = Ok (Some T).
Proof.
  intros T padded.
  assert (H : blank_inserted (getlines (save Libc.put_double T 0)) padded)
    by (vm_compute; repeat constructor).
  destruct (C7_blank_lines_ignored Libc.put_double Libc.stod T padded H)
    as (H1 & H2 & _).
  split; [rewrite H1 | rewrite H2]; reflexivity.
Defined.

(** C7, as stated, fails for a blank line that is not empty: a line of
    one space inserted between the two records of a saved tree has depth 0
    and ends the loop of the root group, so the game after it is lost. *)
Lemma C7_space_line_changes_tree :
  let T := Group "Casino" [Game "Blackjack" 100] in
  let padded := ["GROUP Casino"; " "; "  GAME Blackjack 100"] in
  getlines (save Libc.put_double T 0)
  = ["GROUP Casino"; "  GAME Blackjack 100"]
  /\ whitespace_inserted (getlines (save Libc.put_double T 0)) padded
  /\ node_of (parse Libc.stod (getlines (save Libc.put_double T 0)) 0)
     = Ok (Some T)
  /\ node_of (parse Libc.stod padded 0) = Ok (Some (Group "Casino" []))
  /\ node_of (parse Libc.stod padded 0)
     <> node_of (parse Libc.stod (getlines (save Libc.put_double T 0)) 0)
  /\ loadFromFile Libc.stod (Some (unlines padded))
     <> loadFromFile Libc.stod (Some (save Libc.put_double T 0)).
Proof.
  intros T padded.
  split; [vm_compute; reflexivity |].
  split.
  { replace (getlines (save Libc.put_double T 0))
      with ["GROUP Casino"; "  GAME Blackjack 100"]
      by (vm_compute; reflexivity).
    apply WI_keep. apply WI_blank; [reflexivity |].
    apply WI_keep. apply WI_nil. }
  split; [vm_compute; reflexivity |].
  split; [vm_compute; reflexivity |].
  split; vm_compute; discriminate.
Qed.

(** Only an empty line is passed over in this way: a line made of one
    space has depth 0 and ends the loop of the root group. *)
Example space_line_is_read :
  parse Libc.stod ["GROUP Casino"; " "; "  GAME Blackjack 100"] 0
  = Ok (Some (Group "Casino" []), 1)
  /\ parse Libc.stod ["GROUP Casino"; ""; "  GAME Blackjack 100"] 0
     = Ok (Some (Group "Casino" [Game "Blackjack" 100]), 3).
Proof. split; reflexivity. Qed.

(* ------------------------------------------------------------------ *)
(** ** Lines after the first record *)

Section Trailing.

Variable stod : string -> result float.
Variable second : string.
Variable rest : list string.
Hypothesis second_not_empty : empty second = false.
Hypothesis second_depth : getDepth second = 0.

(** A line of depth 0 ends every loop, so what follows it is not read. *)
Lemma trailing_rel :
  (forall ls r, parse_rel stod ls r ->
     (exists line, In line ls /\ empty line = false) ->
     parse_rel stod (ls ++ second :: rest) r) /\
  (forall d ls g r, while_rel stod d ls g r ->
     while_rel stod d (ls ++ second :: rest) g r).
Proof.
  apply parse_while_rel_ind.
  - intros (line & [] & _).
  - intros ls res _ IH (line & [<- | Hin] & He); [discriminate |].
    cbn. constructor. apply IH. now exists line.
  - intros line ls res He Hg _ IH _. cbn. now constructor.
  - intros line ls He Hg _. cbn. now constructor.
  - intros d g. cbn. apply WR_break; [exact second_not_empty | lia].
  - intros d ls g res _ IH. cbn. now constructor.
  - intros d line ls g He Hd. cbn. now constructor.
  - intros d line ls g child n res He Hd Hp IHp _ IHw.
    change ((line :: ls) ++ second :: rest)
      with (line :: ls ++ second :: rest) in *.
    eapply WR_child; eauto.
    + apply IHp. exists line. split; [now left | exact He].
    + destruct (proj1 (parse_while_rel_bounds stod) _ _ Hp _ _ eq_refl)
        as [Hn _].
      change (line :: ls ++ second :: rest)
        with ((line :: ls) ++ second :: rest).
      rewrite skipn_app.
      replace (n - List.length (line :: ls)) with 0 by lia.
      exact IHw.
  - intros d line ls g e He Hd Hp IHp.
    change ((line :: ls) ++ second :: rest)
      with (line :: ls ++ second :: rest) in *.
    apply WR_child_throw; auto.
    apply IHp. exists line. split; [now left | exact He].
  - intros d line ls g res He Hd _ IH. cbn. now apply WR_orphan.
Qed.

End Trailing.

(** C10. When a non-empty line of depth 0 follows the lines of the first
    record, [parse] from cursor 0 and [loadFromFile] return what they
    return for the first record alone: that line and all that follow are
    not read, and nothing tells the caller. *)
Theorem C10_first_record_only (stod : string -> result float)
                              (first : list string) (second : string)
                              (rest : list string) :
  (exists line, In line first /\ empty line = false) ->
  empty second = false ->
  getDepth second = 0 ->
  parse stod (first ++ second :: rest) 0 = parse stod first 0
  /\ (forall text text1,
        getlines text = first ++ second :: rest ->
        getlines text1 = first ->
        loadFromFile stod (Some text) = loadFromFile stod (Some text1)).
Proof.
  intros Hfirst He Hd.
  assert (Hp : parse stod (first ++ second :: rest) 0 = parse stod first 0).
  { apply parse_reads_0.
    apply (proj1 (trailing_rel stod second rest He Hd)); [| exact Hfirst].
    now apply parse_reads_0. }
  split; [exact Hp |].
  intros text text1 Ht Ht1. rewrite !loadFromFile_node_of, Ht, Ht1, Hp.
  reflexivity.
Qed.

Lemma C10_first_record_only_witness :
  parse Libc.stod (["GROUP Casino"; "  GAME Blackjack 100"]
                     ++ "GROUP Annex" :: ["  GAME Roulette 50.5"]) 0
  = Ok (Some (Group "Casino" [Game "Blackjack" 100]), 2).
Proof.
  rewrite (proj1 (C10_first_record_only Libc.stod
                    ["GROUP Casino"; "  GAME Blackjack 100"] "GROUP Annex"
                    ["  GAME Roulette 50.5"]
                    (ex_intro _ "GROUP Casino" (conj (or_introl eq_refl) eq_refl))
                    eq_refl eq_refl)).
  vm_compute. reflexivity.
Defined.

(* ------------------------------------------------------------------ *)
(** ** Saving, then loading *)

Lemma newline_is_space c : is_newline c = true -> isspace c = true.
Proof.
  unfold is_newline. intros H. apply Ascii.eqb_eq in H. now subst.
Qed.

Lemma no_space_no_newline s :
  no_char isspace s = true -> no_char is_newline s = true.
Proof.
  induction s as [| c s IH]; cbn; [reflexivity |].
  intros H. apply andb_prop in H as [Hc Hs]. rewrite (IH Hs), andb_true_r.
  destruct (is_newline c) eqn:Hn; [| reflexivity].
  now rewrite (newline_is_space _ Hn) in Hc.
Qed.

Lemma indent_plain d : no_char is_newline (indent d) = true.
Proof. induction d as [| d IH]; cbn; [reflexivity | exact IH]. Qed.

Lemma tokens_from_plain s : forall cur,
  no_char isspace cur = true ->
  Forall (fun t => no_char isspace t = true) (tokens_from cur s).
Proof.
  induction s as [| c s IH]; intros cur Hcur; cbn.
  - destruct (empty cur); constructor; auto.
  - destruct (isspace c) eqn:Hc.
    + destruct (empty cur); [now apply IH |].
      constructor; [exact Hcur | now apply IH].
    + apply IH. rewrite no_char_app, Hcur. cbn. now rewrite Hc.
Qed.

Lemma fold_join_plain ts : forall acc,
  no_char is_newline acc = true ->
  Forall (fun t => no_char is_newline t = true) ts ->
  no_char is_newline
    (fold_left (fun acc part => (acc ++ " " ++ part)%string) ts acc) = true.
Proof.
  induction ts as [| t ts IH]; intros acc Hacc Hts; cbn [fold_left];
    [exact Hacc |].
  inversion Hts as [| ? ? Ht Hts']; subst.
  apply IH; [| exact Hts'].
  rewrite !no_char_app, Hacc, Ht. reflexivity.
Qed.

Lemma spaced_words_plain name :
  spaced_words name -> no_char is_newline name = true.
Proof.
  intros [Hne Hjoin]. rewrite <- Hjoin.
  pose proof (tokens_from_plain name EmptyString eq_refl) as Htok.
  fold (tokens name) in Htok.
  destruct (tokens name) as [| t ts]; [congruence |].
  inversion Htok as [| ? ? Ht Hts]; subst. cbn [hd tl].
  apply fold_join_plain; [now apply no_space_no_newline |].
  eapply Forall_impl; [| exact Hts].
  intros a. apply no_space_no_newline.
Qed.

Lemma tokens_from_word p : forall cur,
  no_char isspace p = true ->
  tokens_from cur p = if empty (cur ++ p) then [] else [(cur ++ p)%string].
Proof.
  induction p as [| c p IH]; intros cur H; cbn.
  - now rewrite sapp_nil_r.
  - cbn in H. apply andb_prop in H as [Hc Hp].
    destruct (isspace c); [discriminate |].
    rewrite (IH _ Hp), sapp_assoc. reflexivity.
Qed.

Lemma tokens_from_space s sp t : forall cur,
  isspace sp = true ->
  tokens_from cur (s ++ String sp t)
  = tokens_from cur s ++ tokens_from EmptyString t.
Proof.
  induction s as [| c s IH]; intros cur Hsp; cbn.
  - rewrite Hsp. now destruct (empty cur).
  - destruct (isspace c).
    + destruct (empty cur); now rewrite (IH _ Hsp).
    + now apply IH.
Qed.

(** The tokens of a name followed by a space and one word. *)
Lemma tokens_name_word name p :
  is_token p = true ->
  tokens (name ++ " " ++ p) = tokens name ++ [p].
Proof.
  unfold is_token, tokens. intros H. apply andb_prop in H as [Hne Hp].
  change (name ++ " " ++ p)%string with (name ++ String space p)%string.
  rewrite tokens_from_space by reflexivity.
  rewrite (tokens_from_word p EmptyString Hp). cbn [append].
  now destruct (empty p).
Qed.

Lemma getDepth_indent d c s :
  c <> space -> getDepth (indent d ++ String c s) = d.
Proof.
  intros Hc. induction d as [| d IH]; cbn.
  - destruct c as [[] [] [] [] [] [] [] []]; try reflexivity.
    now contradiction Hc.
  - now rewrite IH.
Qed.

Lemma trimSpaces_indent d c s :
  c <> space -> trimSpaces (indent d ++ String c s) = String c s.
Proof.
  intros Hc. induction d as [| d IH]; cbn.
  - destruct c as [[] [] [] [] [] [] [] []]; try reflexivity.
    now contradiction Hc.
  - exact IH.
Qed.

Lemma empty_indent d c s : empty (indent d ++ String c s) = false.
Proof. destruct d; reflexivity. Qed.

Lemma substring_0_0 s : substring 0 0 s = EmptyString.
Proof. now destruct s. Qed.

Section RoundTrip.

Variable put_double : float -> string.
Variable stod : string -> result float.

Lemma storable_children n cs :
  storable put_double stod (Group n cs) ->
  no_char is_newline n = true /\ Forall (storable put_double stod) cs.
Proof.
  cbn [storable]. intros [Hn Hcs]. split; [exact Hn |].
  induction cs as [| c cs IH]; constructor; cbn in Hcs; tauto.
Qed.

Lemma record_line_plain c d :
  storable put_double stod c ->
  no_char is_newline (record_line put_double c d) = true.
Proof.
  destruct c as [n r | n cs]; cbn [storable record_line].
  - intros (Hn & Hp & _).
    apply andb_prop in Hp as [_ Hp].
    rewrite !no_char_app, indent_plain, (spaced_words_plain _ Hn),
      (no_space_no_newline _ Hp). reflexivity.
  - intros (Hn & _). rewrite !no_char_app, indent_plain, Hn. reflexivity.
Qed.

Lemma save_record_line c d :
  save put_double c d =
  (record_line put_double c d ++ String newline
     match c with
     | Game _ _ => EmptyString
     | Group _ children =>
         fold_right (fun child rest => save put_double child (d + 1) ++ rest)
                    EmptyString children
     end)%string.
Proof.
  destruct c as [n r | n cs]; cbn [save record_line]; now rewrite !sapp_assoc.
Qed.

(** The lines [getline] reads from the text of a saved tree. *)
Lemma getlines_save T : forall d rest,
  storable put_double stod T ->
  getlines_from EmptyString (save put_double T d ++ rest)
  = lines_of put_double T d ++ getlines_from EmptyString rest.
Proof.
  induction T as [n r | n cs IH] using Component_ind'; intros d rest HT.
  - rewrite save_record_line, sapp_assoc. cbn [append].
    rewrite getlines_from_plain by now apply record_line_plain.
    reflexivity.
  - rewrite save_record_line, sapp_assoc. cbn [append].
    rewrite getlines_from_plain by now apply record_line_plain.
    cbn [lines_of app append]. f_equal.
    apply storable_children in HT as [_ Hcs].
    induction IH as [| c cs Hc _ IHcs]; [reflexivity |].
    inversion Hcs as [| ? ? Hsc Hscs]; subst.
    cbn [fold_right flat_map]. rewrite sapp_assoc, (Hc _ _ Hsc), <- app_assoc.
    f_equal. now apply IHcs.
Qed.

Lemma game_line_reads n r d :
  storable put_double stod (Game n r) ->
  let line := record_line put_double (Game n r) d in
  empty line = false /\ getDepth line = d /\
  is_group_record line = false /\
  single_record stod line = Ok (Some (Game n r), 1).
Proof.
  cbn [storable record_line]. intros ((Hne & Hjoin) & Hp & Hs).
  cbn [append].
  set (line := (indent d ++ _)%string).
  assert (Htrim : trimSpaces line
                  = ("GAME " ++ n ++ " " ++ put_double r)%string).
  { subst line. now rewrite trimSpaces_indent by discriminate. }
  assert (Hg : is_game_record line = true).
  { unfold is_game_record, substr0. rewrite Htrim.
    cbn [append substring]. now rewrite substring_0_0. }
  split; [apply empty_indent |].
  split; [apply getDepth_indent; discriminate |].
  split; [now apply game_record_not_group |].
  unfold single_record, leaf_parts. rewrite Hg, Htrim.
  cbn [substr_from append]. rewrite (tokens_name_word _ _ Hp).
  set (parts := tokens n ++ [put_double r]).
  assert (Hlen : (2 <=? List.length parts)%nat = true).
  { subst parts. apply Nat.leb_le. rewrite length_app.
    destruct (tokens n); [congruence | cbn; lia]. }
  assert (Hlast : last parts EmptyString = put_double r)
    by apply last_last.
  assert (Hname : gameName parts = n).
  { subst parts. unfold gameName.
    destruct (tokens n) as [| t ts]; [congruence |].
    cbn [app tl hd] in *. rewrite removelast_last. exact Hjoin. }
  rewrite Hlen, Hlast, Hs, Hname. reflexivity.
Qed.

Lemma group_line_reads n cs d :
  let line := record_line put_double (Group n cs) d in
  empty line = false /\ getDepth line = d /\
  is_group_record line = true /\
  substr_from 6 (trimSpaces line) = n.
Proof.
  cbn [record_line append].
  split; [apply empty_indent |].
  split; [apply getDepth_indent; discriminate |].
  unfold is_group_record. rewrite trimSpaces_indent by discriminate.
  split; [| reflexivity].
  unfold substr0. cbn [substring]. now rewrite substring_0_0.
Qed.

Lemma record_line_head c d :
  storable put_double stod c ->
  empty (record_line put_double c d) = false /\
  getDepth (record_line put_double c d) = d.
Proof.
  destruct c as [n r | n cs]; intros H.
  - destruct (game_line_reads n r d H) as (H1 & H2 & _). auto.
  - destruct (group_line_reads n cs d) as (H1 & H2 & _). auto.
Qed.

Lemma lines_of_head c d :
  exists more, lines_of put_double c d = record_line put_double c d :: more.
Proof. destruct c; eexists; reflexivity. Qed.

Lemma ends_group_next d post :
  ends_group d post -> ends_group (d + 1) post.
Proof. destruct post; cbn; [trivial |]. intros [H1 H2]. split; [auto | lia]. Qed.

Lemma skipn_length_app {A : Type} (l r : list A) :
  skipn (List.length l) (l ++ r) = r.
Proof.
  rewrite skipn_app, skipn_all, Nat.sub_diag. reflexivity.
Qed.

(** The lines of a storable tree read back as the tree. *)
Lemma saved_tree_reads T : forall d post,
  storable put_double stod T ->
  ends_group d post ->
  parse_rel stod (lines_of put_double T d ++ post)
    (Ok (Some T, List.length (lines_of put_double T d))).
Proof.
  induction T as [n r | n cs IH] using Component_ind'; intros d post HT Hpost.
  - destruct (game_line_reads n r d HT) as (He & _ & Hg & Hs).
    cbn [lines_of app List.length]. rewrite <- Hs. now apply PR_single.
  - destruct (group_line_reads n cs d) as (He & Hd & Hg & Hname).
    apply storable_children in HT as [_ Hcs].
    cbn [lines_of app List.length].
    assert (Hloop : forall acc,
      while_rel stod d
        (flat_map (fun child => lines_of put_double child (d + 1)) cs ++ post)
        (Group n acc)
        (Ok (Group n (acc ++ cs),
             List.length
               (flat_map (fun child => lines_of put_double child (d + 1)) cs)))).
    { clear He Hd Hg Hname.
      induction IH as [| c cs Hc _ IHcs]; intros acc.
      - cbn [flat_map app List.length]. rewrite app_nil_r.
        destruct post as [| l post]; [constructor |].
        destruct Hpost. now apply WR_break.
      - inversion Hcs as [| ? ? Hsc Hscs]; subst.
        cbn [flat_map]. rewrite <- app_assoc, length_app.
        set (tail := flat_map _ cs ++ post).
        assert (Htail : ends_group (d + 1) tail).
        { subst tail. destruct cs as [| c2 cs2].
          - cbn. now apply ends_group_next.
          - inversion Hscs as [| ? ? Hsc2 _]; subst.
            destruct (lines_of_head c2 (d + 1)) as [more Hmore].
            cbn [flat_map]. rewrite Hmore. cbn [app ends_group].
            destruct (record_line_head c2 (d + 1) Hsc2) as [H1 H2].
            split; [exact H1 | lia]. }
        pose proof (Hc (d + 1) tail Hsc Htail) as Hchild.
        destruct (record_line_head c (d + 1) Hsc) as [H1 H2].
        destruct (lines_of_head c (d + 1)) as [lc Hlc].
        rewrite Hlc in *.
        change ((record_line put_double c (d + 1) :: lc) ++ tail)
          with (record_line put_double c (d + 1) :: lc ++ tail) in *.
        replace (Ok (Group n (acc ++ c :: cs),
                     List.length (record_line put_double c (d + 1) :: lc)
                     + List.length (flat_map
                         (fun child => lines_of put_double child (d + 1)) cs)))
          with (shift (List.length (record_line put_double c (d + 1) :: lc))
                  (Ok (Group n ((acc ++ [c]) ++ cs),
                       List.length (flat_map
                         (fun child => lines_of put_double child (d + 1)) cs))))
          by (cbn [shift]; now rewrite <- app_assoc).
        eapply WR_child; [exact H1 | exact H2 | exact Hchild |].
        change (record_line put_double c (d + 1) :: lc ++ tail)
          with ((record_line put_double c (d + 1) :: lc) ++ tail).
        rewrite skipn_length_app. apply (IHcs Hscs (acc ++ [c])). }
    change (Ok (Some (Group n cs),
                S (List.length (flat_map
                     (fun child => lines_of put_double child (d + 1)) cs))))
      with (as_node (shift 1 (Ok (Group n ([] ++ cs),
                List.length (flat_map
                     (fun child => lines_of put_double child (d + 1)) cs))))).
    apply PR_group; [exact He | exact Hg |].
    rewrite Hd, Hname. apply Hloop.
Qed.

End RoundTrip.

(** C1, as amended. For every tree in which no group name holds a
    newline, every game name is made of non-empty words separated by single
    spaces, and every revenue is written by [operator<<] as one word that
    [std::stod] reads back as the same [double], parsing from cursor 0 the
    lines of the text [save] writes at depth 0 yields that tree, and so
    does [loadFromFile]. (Reserved prefixes inside a name do no harm.) *)
Theorem C1_save_then_parse (put_double : float -> string)
                           (stod : string -> result float) (T : Component) :
  storable put_double stod T ->
  parse stod (getlines (save put_double T 0)) 0
  = Ok (Some T, List.length (getlines (save put_double T 0)))
  /\ loadFromFile stod (Some (save put_double T 0)) = Ok (Some T).
Proof.
  intros HT.
  assert (Hl : getlines (save put_double T 0) = lines_of put_double T 0).
  { unfold getlines.
    rewrite <- (sapp_nil_r (save put_double T 0)), (getlines_save _ stod) by exact HT.
    cbn [getlines_from empty]. apply app_nil_r. }
  assert (Hp : parse stod (getlines (save put_double T 0)) 0
               = Ok (Some T, List.length (getlines (save put_double T 0)))).
  { apply parse_reads_0. rewrite Hl.
    rewrite <- (app_nil_r (lines_of put_double T 0)) at 1.
    now apply saved_tree_reads. }
  split; [exact Hp |].
  unfold loadFromFile. now rewrite Hp.
Qed.

Lemma C1_save_then_parse_witness :
  let T := Group "Casino"
             [Group "Table Games" [Game "Blackjack" 100; Game "Roulette" 50.5];
              Group "Slot Games" [Game "Mega Joker" 0]] in
  parse Libc.stod (getlines (save Libc.put_double T 0)) 0 = Ok (Some T, 6)
  /\ loadFromFile Libc.stod (Some (save Libc.put_double T 0)) = Ok (Some T).
Proof.
  intros T.
  apply (C1_save_then_parse Libc.put_double Libc.stod T).
  vm_compute. repeat split; discriminate.
Defined.

(** C1, as stated, fails: no name of this tree holds a reserved prefix,
    yet the game comes back with another name (the two spaces are read
    as one separator) and another revenue (the text holds six significant
    digits). *)
Lemma C1_round_trip_changes_tree :
  let T := Group "Casino" [Game "Lucky  7" 1234567] in
  reserved_free T = true
  /\ save Libc.put_double T 0
     = unlines ["GROUP Casino"; "  GAME Lucky  7 1.23457e+06"]
  /\ loadFromFile Libc.stod (Some (save Libc.put_double T 0))
     = Ok (Some (Group "Casino" [Game "Lucky 7" 1234570]))
  /\ loadFromFile Libc.stod (Some (save Libc.put_double T 0)) <> Ok (Some T).
Proof.
  vm_compute. repeat split. discriminate.
Qed.

(* ------------------------------------------------------------------ *)
(** * Further properties of the code *)

(** ** Indentation *)

Lemma getDepth_cons2 c1 c2 s :
  getDepth (String c1 (String c2 s))
  = if Ascii.eqb c1 space && Ascii.eqb c2 space then S (getDepth s) else 0.
Proof.
  destruct (Ascii.eqb_spec c1 space) as [-> | H1].
  - destruct (Ascii.eqb_spec c2 space) as [-> | H2]; [reflexivity |].
    destruct c2 as [[] [] [] [] [] [] [] []]; try reflexivity.
    now contradiction H2.
  - destruct c1 as [[] [] [] [] [] [] [] []]; try reflexivity.
    now contradiction H1.
Qed.

Lemma trimSpaces_cons2 c1 c2 s :
  trimSpaces (String c1 (String c2 s))
  = if Ascii.eqb c1 space && Ascii.eqb c2 space then trimSpaces s
    else String c1 (String c2 s).
Proof.
  destruct (Ascii.eqb_spec c1 space) as [-> | H1].
  - destruct (Ascii.eqb_spec c2 space) as [-> | H2]; [reflexivity |].
    destruct c2 as [[] [] [] [] [] [] [] []]; try reflexivity.
    now contradiction H2.
  - destruct c1 as [[] [] [] [] [] [] [] []]; try reflexivity.
    now contradiction H1.
Qed.

Lemma getDepth_single c : getDepth (String c EmptyString) = 0.
Proof. destruct c as [[] [] [] [] [] [] [] []]; reflexivity. Qed.

Lemma trimSpaces_single c :
  trimSpaces (String c EmptyString) = String c EmptyString.
Proof. destruct c as [[] [] [] [] [] [] [] []]; reflexivity. Qed.

(** Induction on a string two characters at a time, as the two loops go. *)
Lemma string_pairs_ind (P : string -> Prop) :
  P EmptyString ->
  (forall c, P (String c EmptyString)) ->
  (forall c1 c2 s, P s -> P (String c1 (String c2 s))) ->
  forall s, P s.
Proof.
  intros H0 H1 H2. fix IH 1.
  intros [| c1 [| c2 s]]; [exact H0 | apply H1 | apply H2, IH].
Qed.

(** X1. [getDepth] and [trimSpaces] stop at the same place: a line is its
    counted pairs of spaces followed by what [trimSpaces] returns, and what
    [trimSpaces] returns has depth 0 and is not trimmed further. *)
Theorem X1_depth_and_trim_split (line : string) :
  line = (indent (getDepth line) ++ trimSpaces line)%string
  /\ getDepth (trimSpaces line) = 0
  /\ trimSpaces (trimSpaces line) = trimSpaces line.
Proof.
  induction line as [| c | c1 c2 s (IH1 & IH2 & IH3)] using string_pairs_ind.
  - repeat split.
  - rewrite trimSpaces_single, getDepth_single. repeat split.
    apply trimSpaces_single.
  - rewrite getDepth_cons2, trimSpaces_cons2.
    destruct (Ascii.eqb_spec c1 space) as [-> | H1];
      [destruct (Ascii.eqb_spec c2 space) as [-> | H2] |]; cbn [andb].
    + cbn [indent append]. now rewrite <- IH1.
    + rewrite getDepth_cons2, trimSpaces_cons2.
      destruct (Ascii.eqb_spec c2 space); [contradiction |].
      rewrite andb_false_r. repeat split.
    + rewrite getDepth_cons2, trimSpaces_cons2.
      destruct (Ascii.eqb_spec c1 space); [contradiction |].
      repeat split.
Qed.

Lemma getDepth_indent_app d s : getDepth (indent d ++ s) = d + getDepth s.
Proof. induction d as [| d IH]; cbn; [reflexivity | now rewrite IH]. Qed.

Lemma trimSpaces_indent_app d s : trimSpaces (indent d ++ s) = trimSpaces s.
Proof. induction d as [| d IH]; cbn; [reflexivity | exact IH]. Qed.

(** X2. The indentation [save] writes is what [getDepth] counts: the line
    of a node saved at depth [d] has depth [d], and [trimSpaces] gives the
    line the node has at depth 0. One more space is not counted. *)
Theorem X2_saved_depth_is_read (put_double : float -> string)
                               (c : Component) (d : nat) (s : string) :
  getDepth (record_line put_double c d) = d
  /\ trimSpaces (record_line put_double c d) = record_line put_double c 0
  /\ getDepth (indent d ++ s) = d + getDepth s
  /\ getDepth (indent d ++ String space (record_line put_double c 0)) = d.
Proof.
  split; [| split; [| split]].
  - destruct c; cbn [record_line append]; apply getDepth_indent; discriminate.
  - destruct c; cbn [record_line append indent];
      apply trimSpaces_indent; discriminate.
  - apply getDepth_indent_app.
  - rewrite getDepth_indent_app.
    destruct c; cbn [record_line indent append]; cbn; lia.
Qed.

(* ------------------------------------------------------------------ *)
(** ** Reading lines and words *)

Lemma tokens_from_are_tokens s : forall cur,
  no_char isspace cur = true ->
  Forall (fun t => is_token t = true) (tokens_from cur s).
Proof.
  unfold is_token.
  induction s as [| c s IH]; intros cur Hcur; cbn.
  - destruct (empty cur) eqn:He; constructor; [| constructor].
    now rewrite He, Hcur.
  - destruct (isspace c) eqn:Hc.
    + destruct (empty cur) eqn:He; [now apply IH |].
      constructor; [now rewrite He, Hcur | now apply IH].
    + apply IH. rewrite no_char_app, Hcur. cbn. now rewrite Hc.
Qed.

Lemma tokens_word w : is_token w = true -> tokens w = [w].
Proof.
  unfold is_token, tokens. intros H. apply andb_prop in H as [Hne Hw].
  rewrite (tokens_from_word w EmptyString Hw). cbn [append].
  now destruct (empty w).
Qed.

Lemma tokens_space_app a b :
  tokens (a ++ " " ++ b) = tokens a ++ tokens b.
Proof.
  unfold tokens.
  change (a ++ " " ++ b)%string with (a ++ String space b)%string.
  now rewrite tokens_from_space.
Qed.

Lemma tokens_concat ws :
  Forall (fun t => is_token t = true) ws ->
  tokens (String.concat " " ws) = ws.
Proof.
  induction 1 as [| w ws Hw Hws IH]; [reflexivity |].
  destruct ws as [| w2 ws]; [now apply tokens_word |].
  change (String.concat " " (w :: w2 :: ws))
    with (w ++ " " ++ String.concat " " (w2 :: ws))%string.
  rewrite tokens_space_app, (tokens_word w Hw), IH. reflexivity.
Qed.

(** X3. The words [iss >> part] extracts are never empty and hold no
    white space; joining words with single spaces and extracting again
    gives the same words. *)
Theorem X3_words_round_trip (s : string) (ws : list string) :
  Forall (fun t => is_token t = true) (tokens s)
  /\ (Forall (fun t => is_token t = true) ws ->
      tokens (String.concat " " ws) = ws).
Proof.
  split; [now apply tokens_from_are_tokens | apply tokens_concat].
Qed.

Lemma X3_words_round_trip_witness :
  tokens (String.concat " " ["Lucky"; "7"; "Slot"]) = ["Lucky"; "7"; "Slot"].
Proof.
  apply (X3_words_round_trip EmptyString ["Lucky"; "7"; "Slot"]).
  repeat constructor.
Defined.

(** X4. The lines [std::getline] delivers hold no newline, and a text made
    of newline-free lines, each ended by a newline, is read back as these
    lines; a last line without its newline is read all the same. *)
Theorem X4_lines_round_trip (text : string) (ls : list string) (last_line : string) :
  Forall (fun l => no_char is_newline l = true) (getlines text)
  /\ (Forall (fun l => no_char is_newline l = true) ls ->
      no_char is_newline last_line = true ->
      getlines (unlines ls) = ls
      /\ (empty last_line = false ->
          getlines (unlines ls ++ last_line) = ls ++ [last_line])).
Proof.
  split; [now apply getlines_from_plain_lines |].
  intros Hls Hlast. split; [now apply getlines_unlines |].
  intros Hne. unfold getlines.
  induction Hls as [| l ls Hl _ IH].
  - cbn [unlines fold_right append app].
    rewrite <- (sapp_nil_r last_line) at 1.
    assert (H : forall cur, getlines_from cur (last_line ++ "")
                            = [(cur ++ last_line)%string] \/ (empty (cur ++ last_line) = true)).
    { intros cur. rewrite sapp_nil_r. clear Hne.
      revert cur. induction last_line as [| c s IHs]; intros cur; cbn.
      - rewrite sapp_nil_r. destruct (empty cur); auto.
      - cbn in Hlast. apply andb_prop in Hlast as [Hc Hs].
        destruct (is_newline c); [discriminate |].
        destruct (IHs Hs (cur ++ String c "")%string) as [H | H];
          rewrite sapp_assoc in H; cbn [append] in H; auto. }
    destruct (H EmptyString) as [H' | H']; cbn [append] in H';
      [exact H' | congruence].
  - cbn [unlines fold_right]. rewrite sapp_assoc. cbn [append].
    rewrite getlines_from_plain by exact Hl. cbn [append app]. f_equal.
    exact IH.
Qed.

Lemma X4_lines_round_trip_witness :
  getlines (unlines ["GROUP Casino"; ""; "  GAME Blackjack 100"])
  = ["GROUP Casino"; ""; "  GAME Blackjack 100"]
  /\ getlines (unlines ["GROUP Casino"] ++ "  GAME Blackjack 100")
     = ["GROUP Casino"] ++ ["  GAME Blackjack 100"].
Proof.
  destruct (X4_lines_round_trip EmptyString ["GROUP Casino"; ""; "  GAME Blackjack 100"]
              EmptyString) as [_ H1].
  destruct (X4_lines_round_trip EmptyString ["GROUP Casino"]
              "  GAME Blackjack 100") as [_ H2].
  split.
  - apply H1; [repeat constructor | reflexivity].
  - apply H2; [repeat constructor | reflexivity | reflexivity].
Defined.

(* ------------------------------------------------------------------ *)
(** ** The parser *)

Section ParserFacts.

Variable stod : string -> result float.

Lemma parse_reading lines i :
  exists r, parse stod lines i = shift i r /\ parse_rel stod (skipn i lines) r.
Proof.
  destruct (proj1 (parse_while_rel_complete stod _ lines) i _
              (parse_fuel_enough stod lines i)) as (r & Hr & Hrel).
  now exists r.
Qed.

Lemma parse_while_reading lines d g i :
  exists r, parse_while stod lines d g i = shift i r /\
            while_rel stod d (skipn i lines) g r.
Proof.
  destruct (proj2 (parse_while_rel_complete stod _ lines) d g i _
              (while_fuel_enough stod lines d g i)) as (r & Hr & Hrel).
  now exists r.
Qed.

(** The loop of a group keeps the group and its children and only adds
    children at the end, at most one per line it consumes. *)
Lemma while_rel_appends :
  (forall ls r, parse_rel stod ls r -> True) /\
  (forall d ls g r, while_rel stod d ls g r ->
     forall name cs g' n, g = Group name cs -> r = Ok (g', n) ->
     exists more, g' = Group name (cs ++ more) /\ List.length more <= n).
Proof.
  apply parse_while_rel_ind; try (intros; exact I).
  - intros d g name cs g' n -> H. injection H as <- <-.
    exists []. now rewrite app_nil_r.
  - intros d rest g [[g1 n1] | e] _ IH name cs g' n Hg H; [| discriminate].
    injection H as <- <-.
    destruct (IH _ _ _ _ Hg eq_refl) as (more & -> & Hlen).
    exists more. split; [reflexivity | lia].
  - intros d line rest g _ _ name cs g' n -> H. injection H as <- <-.
    exists []. now rewrite app_nil_r.
  - intros d line rest g child n [[g1 n1] | e] He _ Hp _ _ IH name cs g' m -> H;
      [| discriminate].
    injection H as <- <-.
    destruct (proj1 (parse_while_rel_bounds stod) _ _ Hp _ _ eq_refl)
      as [_ Hn].
    specialize (Hn ltac:(discriminate)).
    destruct child as [c |]; cbn [add_if add] in IH.
    + destruct (IH _ _ _ _ eq_refl eq_refl) as (more & -> & Hlen).
      exists (c :: more). rewrite <- app_assoc. split; [reflexivity |].
      cbn. lia.
    + destruct (IH _ _ _ _ eq_refl eq_refl) as (more & -> & Hlen).
      exists more. split; [reflexivity | lia].
  - discriminate.
  - intros d line rest g [[g1 n1] | e] _ _ _ IH name cs g' n Hg H;
      [| discriminate].
    injection H as <- <-.
    destruct (IH _ _ _ _ Hg eq_refl) as (more & -> & Hlen).
    exists more. split; [reflexivity | lia].
Qed.

End ParserFacts.

(** X5. [parse] terminates at every cursor, within the lines or beyond
    them: the fuel of the embedding, two units per line and two more,
    always yields a result. The cursor never comes back before where it
    was; from a cursor within the lines it comes back within the lines,
    and further when there was a line left; at or beyond the end nothing
    is read and the cursor comes back as it was. *)
Theorem X5_parse_terminates_in_bounds (stod : string -> result float)
                                      (lines : list string) (index : nat) :
  parse_fuel stod (enough lines) lines index = Some (parse stod lines index)
  /\ (forall node index',
        parse stod lines index = Ok (node, index') ->
        index <= index'
        /\ (index <= List.length lines -> index' <= List.length lines)
        /\ (index < List.length lines -> index < index'))
  /\ (List.length lines <= index ->
        parse stod lines index = Ok (None, index)).
Proof.
  split; [apply parse_fuel_enough |]. split.
  - intros node index' H.
    destruct (parse_reading stod lines index) as ([[c n] | e] & Hr & Hrel);
      rewrite Hr in H; [| discriminate].
    injection H as <- <-.
    destruct (proj1 (parse_while_rel_bounds stod) _ _ Hrel _ _ eq_refl)
      as [Hn Hpos].
    rewrite length_skipn in Hn. split; [lia |]. split; [lia |].
    intros Hlt. assert (H : skipn index lines <> []).
    { intros Hnil. apply (f_equal (@List.length string)) in Hnil.
      rewrite length_skipn in Hnil. cbn in Hnil. lia. }
    specialize (Hpos H). lia.
  - intros Hle. rewrite parse_eq.
    apply nth_error_None in Hle. now rewrite Hle.
Qed.

Lemma X5_parse_terminates_in_bounds_witness :
  let lines := ["GROUP Casino"; "  GAME Blackjack 100"; ""; "GROUP Other";
                "  GAME Roulette 1"] in
  parse_fuel Libc.stod (enough lines) lines 0
  = Some (Ok (Some (Group "Casino" [Game "Blackjack" 100]), 3))
  /\ 0 <= 3 /\ 3 <= List.length lines /\ 0 < 3
  /\ parse Libc.stod lines 7 = Ok (None, 7).
Proof.
  intros lines.
  destruct (X5_parse_terminates_in_bounds Libc.stod lines 0) as (H1 & H2 & _).
  destruct (X5_parse_terminates_in_bounds Libc.stod lines 7) as (_ & _ & H3).
  assert (Hp : parse Libc.stod lines 0
               = Ok (Some (Group "Casino" [Game "Blackjack" 100]), 3))
    by (vm_compute; reflexivity).
  destruct (H2 _ _ Hp) as (A & B & C).
  split; [now rewrite H1, Hp |].
  split; [exact A |].
  split; [apply B; cbn; lia |].
  split; [apply C; cbn; lia |].
  apply H3. cbn. lia.
Defined.

(** X6. [parse] reads nothing before its cursor: lines put in front of a
    sequence move the cursors and change nothing else. *)
Theorem X6_parse_ignores_earlier_lines (stod : string -> result float)
                                       (before lines : list string) (index : nat) :
  parse stod (before ++ lines) (List.length before + index)
  = shift (List.length before) (parse stod lines index).
Proof.
  destruct (parse_reading stod lines index) as (r & Hr & Hrel).
  rewrite Hr, shift_shift. apply parse_reads.
  rewrite skipn_app.
  replace (List.length before + index - List.length before) with index by lia.
  rewrite skipn_all2 by lia. exact Hrel.
Qed.

Lemma parse_while_appends (stod : string -> result float) lines d name
                          children index group' index' :
  parse_while stod lines d (Group name children) index = Ok (group', index') ->
  exists more, group' = Group name (children ++ more)
               /\ List.length more <= index' - index.
Proof.
  intros H.
  destruct (parse_while_reading stod lines d (Group name children) index)
    as ([[g n] | e] & Hr & Hrel); rewrite Hr in H; [| discriminate].
  injection H as <- <-.
  destruct (proj2 (while_rel_appends stod) _ _ _ _ Hrel _ _ _ _ eq_refl eq_refl)
    as (more & -> & Hlen).
  exists more. split; [reflexivity | lia].
Qed.

(** X7. The loop of a group record only adds children: the group that
    comes out has the same name, the children it had in the same order,
    and after them at most one new child per line the loop went over. *)
Theorem X7_loop_only_appends (stod : string -> result float)
                             (lines : list string) (d : nat) (name : string)
                             (children : list Component) (index : nat)
                             (group' : Component) (index' : nat) :
  parse_while stod lines d (Group name children) index = Ok (group', index') ->
  exists more, group' = Group name (children ++ more)
               /\ List.length more <= index' - index.
Proof. apply parse_while_appends. Qed.

Lemma X7_loop_only_appends_witness :
  exists more,
    Group "Casino" [Game "Roulette" 50.5; Game "Blackjack" 100]
    = Group "Casino" ([Game "Roulette" 50.5] ++ more)
    /\ List.length more <= 2 - 1.
Proof.
  apply (X7_loop_only_appends Libc.stod
           ["GROUP Casino"; "  GAME Blackjack 100"] 0 "Casino"
           [Game "Roulette" 50.5] 1).
  reflexivity.
Defined.

(** X8. What [parse] returns from cursor 0 is decided by the first
    non-empty line: a group record gives a group with the name that
    follows "GROUP " (unless [std::stod] throws further on), any other
    line gives what that line alone gives, and the cursor stops right
    after it. *)
Theorem X8_root_is_first_record (stod : string -> result float)
                                (lines : list string) (index : nat) (line : string) :
  (forall k, k < index -> nth_error lines k = Some EmptyString) ->
  nth_error lines index = Some line ->
  empty line = false ->
  (is_group_record line = true ->
     (exists e, parse stod lines 0 = Throw e) \/
     (exists children index',
        parse stod lines 0
        = Ok (Some (Group (substr_from 6 (trimSpaces line)) children), index')))
  /\ (is_group_record line = false ->
        parse stod lines 0 = shift index (single_record stod line)).
Proof.
  intros Hblank Hn He.
  rewrite (parse_leading_blanks stod lines index Hblank).
  rewrite parse_eq, Hn, He. split; intros Hg; rewrite Hg; [| reflexivity].
  destruct (parse_while stod lines (getDepth line) _ (index + 1))
    as [[g j] | e] eqn:Hw.
  - right. apply parse_while_appends in Hw as (more & -> & _).
    now exists ([] ++ more), j.
  - left. now exists e.
Qed.

Lemma X8_root_is_first_record_witness :
  (exists e, parse Libc.stod [""; "GROUP Casino"; "  GAME Blackjack 100"] 0
             = Throw e) \/
  (exists children index',
     parse Libc.stod [""; "GROUP Casino"; "  GAME Blackjack 100"] 0
     = Ok (Some (Group "Casino" children), index')).
Proof.
  apply (X8_root_is_first_record Libc.stod
           [""; "GROUP Casino"; "  GAME Blackjack 100"] 1 "GROUP Casino").
  - intros [| k] Hk; [reflexivity | lia].
  - reflexivity.
  - reflexivity.
  - reflexivity.
Defined.

Lemma nth_error_all_blank lines :
  Forall (fun l => l = EmptyString) lines ->
  forall k, k < List.length lines -> nth_error lines k = Some EmptyString.
Proof.
  induction 1 as [| l ls -> _ IH]; intros k Hk; cbn in Hk; [lia |].
  destruct k as [| k]; [reflexivity |]. cbn. apply IH. lia.
Qed.

(** X9. An input without any non-empty line, the empty file among them,
    gives no node: [parse] runs to the end of the lines and [loadFromFile]
    returns [nullptr]. *)
Theorem X9_blank_input_gives_no_node (stod : string -> result float)
                                    (text : string) :
  Forall (fun l => l = EmptyString) (getlines text) ->
  parse stod (getlines text) 0 = Ok (None, List.length (getlines text))
  /\ loadFromFile stod (Some text) = Ok None.
Proof.
  intros H.
  assert (Hp : parse stod (getlines text) 0
               = Ok (None, List.length (getlines text))).
  { rewrite (parse_leading_blanks stod _ (List.length (getlines text))
               (nth_error_all_blank _ H)).
    rewrite parse_eq.
    now rewrite (proj2 (nth_error_None _ _) (Nat.le_refl _)). }
  split; [exact Hp |].
  unfold loadFromFile. now rewrite Hp.
Qed.

Lemma X9_blank_input_gives_no_node_witness :
  loadFromFile Libc.stod (Some EmptyString) = Ok None
  /\ loadFromFile Libc.stod (Some (unlines [""; ""])) = Ok None.
Proof.
  split.
  - apply (X9_blank_input_gives_no_node Libc.stod EmptyString). constructor.
  - apply (X9_blank_input_gives_no_node Libc.stod (unlines [""; ""])).
    repeat constructor.
Defined.

(* ------------------------------------------------------------------ *)
(** ** The tree that comes out of the parser *)

Lemma preorder_length_add name cs c :
  List.length (preorder (Group name (cs ++ [c])))
  = List.length (preorder (Group name cs)) + List.length (preorder c).
Proof.
  cbn [preorder List.length]. rewrite flat_map_app, length_app.
  cbn [flat_map]. rewrite app_nil_r. lia.
Qed.

Section ParsedTree.

Variable stod : string -> result float.

(** A tree has at most as many nodes as lines were consumed for it. *)
Lemma parsed_size_rel :
  (forall ls r, parse_rel stod ls r ->
     forall T n, r = Ok (Some T, n) -> List.length (preorder T) <= n) /\
  (forall d ls g r, while_rel stod d ls g r ->
     forall name cs g' n, g = Group name cs -> r = Ok (g', n) ->
     List.length (preorder g') <= List.length (preorder g) + n).
Proof.
  apply parse_while_rel_ind.
  - discriminate.
  - intros rest [[c n1] | e] _ IH T n H; [| discriminate].
    injection H as -> <-. specialize (IH _ _ eq_refl). lia.
  - intros line rest [[g n1] | e] _ _ _ IH T n H; [| discriminate].
    injection H as <- <-. specialize (IH _ _ _ _ eq_refl eq_refl).
    cbn in IH. lia.
  - intros line rest _ _ T n H. unfold single_record in H.
    destruct (is_game_record line); [| discriminate].
    destruct (2 <=? _)%nat; [| discriminate].
    destruct (stod _); [| discriminate].
    injection H as <- <-. cbn. lia.
  - intros d g name cs g' n -> H. injection H as <- <-. lia.
  - intros d rest g [[g1 n1] | e] _ IH name cs g' n Hg H; [| discriminate].
    injection H as <- <-. specialize (IH _ _ _ _ Hg eq_refl). lia.
  - intros d line rest g _ _ name cs g' n -> H. injection H as <- <-. lia.
  - intros d line rest g child n [[g1 n1] | e] _ _ _ IHp _ IHw name cs g' m -> H;
      [| discriminate].
    injection H as <- <-.
    destruct child as [c |]; cbn [add_if add] in IHw.
    + specialize (IHp _ _ eq_refl). specialize (IHw _ _ _ _ eq_refl eq_refl).
      rewrite preorder_length_add in IHw. lia.
    + specialize (IHw _ _ _ _ eq_refl eq_refl). lia.
  - discriminate.
  - intros d line rest g [[g1 n1] | e] _ _ _ IH name cs g' n Hg H;
      [| discriminate].
    injection H as <- <-. specialize (IH _ _ _ _ Hg eq_refl). lia.
Qed.

End ParsedTree.

(** X10. [parse] makes at most one node per line: the tree it returns
    has no more nodes than lines lie between the two cursors. *)
Theorem X10_one_node_per_line_at_most (stod : string -> result float)
                                      (lines : list string) (index : nat)
                                      (T : Component) (index' : nat) :
  parse stod lines index = Ok (Some T, index') ->
  List.length (preorder T) <= index' - index.
Proof.
  intros H.
  destruct (parse_reading stod lines index) as ([[c n] | e] & Hr & Hrel);
    rewrite Hr in H; [| discriminate].
  injection H as -> <-.
  pose proof (proj1 (parsed_size_rel stod) _ _ Hrel _ _ eq_refl). lia.
Qed.

Lemma X10_one_node_per_line_at_most_witness :
  List.length (preorder (Group "Casino" [Game "Blackjack" 100])) <= 4 - 0.
Proof.
  apply (X10_one_node_per_line_at_most Libc.stod
           ["GROUP Casino"; ""; "      junk"; "  GAME Blackjack 100"] 0
           (Group "Casino" [Game "Blackjack" 100]) 4).
  reflexivity.
Defined.

Lemma no_char_substr_from p k : forall s,
  no_char p s = true -> no_char p (substr_from k s) = true.
Proof.
  induction k as [| k IH]; intros [| c s] H; cbn in *; auto.
  apply andb_prop in H as [_ H]. now apply IH.
Qed.

Lemma no_char_trimSpaces p s :
  no_char p s = true -> no_char p (trimSpaces s) = true.
Proof.
  induction s as [| c | c1 c2 s IH] using string_pairs_ind; intros H.
  - exact H.
  - now rewrite trimSpaces_single.
  - rewrite trimSpaces_cons2.
    destruct (Ascii.eqb c1 space && Ascii.eqb c2 space); [| exact H].
    cbn in H. apply andb_prop in H as [_ H]. apply andb_prop in H as [_ H].
    now apply IH.
Qed.

Lemma Forall_removelast {A : Type} (P : A -> Prop) l :
  Forall P l -> Forall P (removelast l).
Proof.
  induction 1 as [| x l Hx Hl IH]; [constructor |].
  destruct l as [| y l]; [constructor |].
  change (removelast (x :: y :: l)) with (x :: removelast (y :: l)).
  now constructor.
Qed.

Lemma Forall_skipn_keep {A : Type} (P : A -> Prop) n l :
  Forall P l -> Forall P (skipn n l).
Proof.
  intros H. rewrite <- (firstn_skipn n l) in H.
  now apply Forall_app in H as [_ H].
Qed.

(** The name [parse] assembles for a game is made of words separated by
    single spaces. *)
Lemma gameName_spaced_words parts :
  Forall (fun t => is_token t = true) parts ->
  2 <= List.length parts ->
  spaced_words (gameName parts).
Proof.
  intros Htok Hlen. rewrite (gameName_concat _ Hlen).
  pose proof (Forall_removelast _ _ Htok) as Hws.
  destruct parts as [| t [| u us]]; cbn [List.length] in Hlen; try lia.
  change (removelast (t :: u :: us)) with (t :: removelast (u :: us)) in *.
  unfold spaced_words. rewrite (tokens_concat _ Hws). split; [discriminate |].
  cbn [hd tl]. apply fold_join_concat.
Qed.

Lemma tidy_children cs :
  fold_right (fun child rest => tidy_names child /\ rest) True cs
  <-> Forall tidy_names cs.
Proof.
  induction cs as [| c cs IH]; cbn; split; intros H.
  - constructor.
  - exact I.
  - constructor; tauto.
  - inversion H; subst. tauto.
Qed.

Lemma tidy_names_add name cs c :
  tidy_names (Group name cs) -> tidy_names c ->
  tidy_names (Group name (cs ++ [c])).
Proof.
  cbn [tidy_names]. intros [Hn Hcs] Hc. split; [exact Hn |].
  apply tidy_children. apply tidy_children in Hcs.
  apply Forall_app. split; [exact Hcs | now constructor].
Qed.

Section ParsedNames.

Variable stod : string -> result float.

Lemma parsed_names_rel :
  (forall ls r, parse_rel stod ls r ->
     Forall (fun l => no_char is_newline l = true) ls ->
     forall T n, r = Ok (Some T, n) -> tidy_names T) /\
  (forall d ls g r, while_rel stod d ls g r ->
     Forall (fun l => no_char is_newline l = true) ls ->
     forall name cs g' n, g = Group name cs -> tidy_names g ->
     r = Ok (g', n) -> tidy_names g').
Proof.
  apply parse_while_rel_ind.
  - discriminate.
  - intros rest [[c n1] | e] _ IH Hls T n H; [| discriminate].
    injection H as -> <-. inversion Hls; subst. eapply IH; eauto.
  - intros line rest [[g n1] | e] _ _ _ IH Hls T n H; [| discriminate].
    injection H as <- <-. inversion Hls as [| ? ? Hl Hrest]; subst.
    eapply IH; [exact Hrest | reflexivity | | reflexivity].
    cbn [tidy_names fold_right]. split; [| exact I].
    now apply no_char_substr_from, no_char_trimSpaces.
  - intros line rest _ _ _ T n H. unfold single_record in H.
    destruct (is_game_record line); [| discriminate].
    destruct (2 <=? _)%nat eqn:Hlen; [| discriminate].
    destruct (stod _); [| discriminate].
    injection H as <- <-. cbn [tidy_names].
    apply gameName_spaced_words; [| now apply Nat.leb_le].
    now apply tokens_from_are_tokens.
  - intros d g _ name cs g' n -> Hg H. now injection H as <- <-.
  - intros d rest g [[g1 n1] | e] _ IH Hls name cs g' n Hg Ht H;
      [| discriminate].
    injection H as <- <-. inversion Hls; subst. eapply IH; eauto.
  - intros d line rest g _ _ _ name cs g' n -> Hg H. now injection H as <- <-.
  - intros d line rest g child n [[g1 n1] | e] _ _ _ IHp _ IHw Hls
           name cs g' m -> Ht H; [| discriminate].
    injection H as <- <-.
    pose proof (Forall_skipn_keep _ n _ Hls) as Hskip.
    destruct child as [c |]; cbn [add_if add] in IHw.
    + eapply IHw; [exact Hskip | reflexivity | | reflexivity].
      apply tidy_names_add; [exact Ht |]. eapply IHp; eauto.
    + eapply IHw; eauto.
  - discriminate.
  - intros d line rest g [[g1 n1] | e] _ _ _ IH Hls name cs g' n Hg Ht H;
      [| discriminate].
    injection H as <- <-. inversion Hls; subst. eapply IH; eauto.
Qed.

Lemma parsed_names_tidy text T :
  loadFromFile stod (Some text) = Ok (Some T) -> tidy_names T.
Proof.
  rewrite loadFromFile_node_of. intros H.
  destruct (parse_reading stod (getlines text) 0) as ([[c n] | e] & Hr & Hrel);
    rewrite Hr in H; cbn in H; [| discriminate].
  injection H as ->.
  eapply (proj1 parsed_names_rel _ _ Hrel); [| reflexivity].
  now apply getlines_from_plain_lines.
Qed.

End ParsedNames.

(** X11. Every tree [loadFromFile] returns has names the text format
    keeps: the name of each game is made of non-empty words separated by
    single spaces, and no name of a group holds a newline. *)
Theorem X11_loaded_names_are_tidy (stod : string -> result float)
                                  (text : string) (T : Component) :
  loadFromFile stod (Some text) = Ok (Some T) -> tidy_names T.
Proof. apply parsed_names_tidy. Qed.

Lemma X11_loaded_names_are_tidy_witness :
  tidy_names (Group " Casino " [Game "Lucky 7" 10]).
Proof.
  apply (X11_loaded_names_are_tidy Libc.stod
           (unlines ["GROUP  Casino "; "  GAME   Lucky	7   10"])).
  reflexivity.
Defined.

Lemma storable_of_tidy put_double stod T :
  tidy_names T -> revenues_stable put_double stod T ->
  storable put_double stod T.
Proof.
  induction T as [n r | n cs IH] using Component_ind'.
  - cbn. tauto.
  - cbn [tidy_names revenues_stable storable]. intros [Hn Hcs] Hrs.
    split; [exact Hn |].
    induction IH as [| c cs Hc _ IHcs]; [exact I |].
    cbn in *. destruct Hcs as [Hc1 Hcs], Hrs as [Hr1 Hrs]. split; auto.
Qed.

(** A storable tree is loaded back from the text [save] writes. *)
Lemma storable_loads put_double stod T :
  storable put_double stod T ->
  loadFromFile stod (Some (save put_double T 0)) = Ok (Some T).
Proof.
  intros HT. rewrite loadFromFile_node_of.
  assert (Hl : getlines (save put_double T 0) = lines_of put_double T 0).
  { unfold getlines.
    rewrite <- (sapp_nil_r (save put_double T 0)),
      (getlines_save _ stod) by exact HT.
    cbn [getlines_from empty]. apply app_nil_r. }
  rewrite Hl.
  assert (Hp : parse stod (lines_of put_double T 0) 0
               = Ok (Some T, List.length (lines_of put_double T 0))).
  { apply parse_reads_0.
    rewrite <- (app_nil_r (lines_of put_double T 0)) at 1.
    now apply saved_tree_reads. }
  now rewrite Hp.
Qed.

(** X12. Loading, saving and loading again gives the same tree, as soon
    as each of its revenues is written as a word that [std::stod] reads
    back as the same [double]: the names a load produces are kept by the
    text format. *)
Theorem X12_load_save_load (put_double : float -> string)
                           (stod : string -> result float)
                           (text : string) (T : Component) :
  loadFromFile stod (Some text) = Ok (Some T) ->
  revenues_stable put_double stod T ->
  loadFromFile stod (Some (save put_double T 0)) = Ok (Some T).
Proof.
  intros Hload Hrev. apply storable_loads, storable_of_tidy; [| exact Hrev].
  eapply parsed_names_tidy, Hload.
Qed.

Lemma X12_load_save_load_witness :
  loadFromFile Libc.stod
    (Some (save Libc.put_double (Group " Casino " [Game "Lucky 7" 10]) 0))
  = Ok (Some (Group " Casino " [Game "Lucky 7" 10])).
Proof.
  apply (X12_load_save_load Libc.put_double Libc.stod
           (unlines ["GROUP  Casino "; "  GAME   Lucky	7   10.0"])).
  - reflexivity.
  - vm_compute. repeat split.
Defined.

(* ------------------------------------------------------------------ *)
(** ** Adding children, listing games *)

Lemma filter_partition_length {A : Type} (p : A -> bool) l :
  List.length (filter p l) + List.length (filter (fun x => negb (p x)) l)
  = List.length l.
Proof.
  induction l as [| x l IH]; [reflexivity |].
  cbn. destruct (p x); cbn; lia.
Qed.

Lemma count_groups_preorder c :
  count_groups c = List.length (filter isGroup (preorder c)).
Proof.
  induction c as [n r | n cs IH] using Component_ind'; [reflexivity |].
  cbn [count_groups preorder filter isGroup List.length]. f_equal.
  induction IH as [| c cs Hc _ IHcs]; [reflexivity |].
  cbn [fold_right flat_map]. rewrite filter_app, length_app, Hc, IHcs.
  reflexivity.
Qed.

(** X13. Adding a child to a group adds its revenue to the total by one
    more [double] addition, and puts its games after the games already
    listed. *)
Theorem X13_add_extends_totals (n : string) (children : list Component)
                               (c : Component) :
  getRevenue (add (Group n children) c)
  = (getRevenue (Group n children) + getRevenue c)%float
  /\ getAllGames (add (Group n children) c)
     = getAllGames (Group n children)
         ++ (if isGroup c then getAllGames c else [c]).
Proof.
  split.
  - cbn [add getRevenue]. now rewrite fold_left_app.
  - cbn [add getAllGames]. rewrite fold_left_app. cbn [fold_left].
    now destruct (isGroup c).
Qed.

(** X14. [getAllGames] returns games only, so the cast to [Game*] in it
    is sound, and it returns all of them: every node of the subtree is
    either listed or a group. *)
Theorem X14_all_games_are_games (n : string) (children : list Component) :
  Forall (fun x => isGroup x = false) (getAllGames (Group n children))
  /\ List.length (getAllGames (Group n children))
     + count_groups (Group n children)
     = List.length (preorder (Group n children)).
Proof.
  rewrite (getAllGames_preorder (Group n children) eq_refl). split.
  - apply Forall_forall. intros x Hx. apply filter_In in Hx as [_ Hx].
    now destruct (isGroup x).
  - rewrite count_groups_preorder, Nat.add_comm.
    apply filter_partition_length.
Qed.

(* ------------------------------------------------------------------ *)
(** ** The text of [save] and of [display] *)

Lemma plain_children put_double n cs :
  plain put_double (Group n cs) ->
  no_char is_newline n = true /\ Forall (plain put_double) cs.
Proof.
  cbn [plain]. intros [Hn Hcs]. split; [exact Hn |].
  induction cs as [| c cs IH]; constructor; cbn in Hcs; tauto.
Qed.

Lemma record_line_plain' put_double c d :
  plain put_double c ->
  no_char is_newline (record_line put_double c d) = true.
Proof.
  destruct c as [n r | n cs]; cbn [plain record_line].
  - intros (Hn & Hp).
    rewrite !no_char_app, indent_plain, Hn, Hp. reflexivity.
  - intros (Hn & _). rewrite !no_char_app, indent_plain, Hn. reflexivity.
Qed.

Lemma getlines_save_plain put_double T : forall d rest,
  plain put_double T ->
  getlines_from EmptyString (save put_double T d ++ rest)
  = lines_of put_double T d ++ getlines_from EmptyString rest.
Proof.
  induction T as [n r | n cs IH] using Component_ind'; intros d rest HT.
  - rewrite save_record_line, sapp_assoc. cbn [append].
    rewrite getlines_from_plain by now apply record_line_plain'.
    reflexivity.
  - rewrite save_record_line, sapp_assoc. cbn [append].
    rewrite getlines_from_plain by now apply record_line_plain'.
    cbn [lines_of app append]. f_equal.
    apply plain_children in HT as [_ Hcs].
    induction IH as [| c cs Hc _ IHcs]; [reflexivity |].
    inversion Hcs as [| ? ? Hsc Hscs]; subst.
    cbn [fold_right flat_map]. rewrite sapp_assoc, (Hc _ _ Hsc), <- app_assoc.
    f_equal. now apply IHcs.
Qed.

Lemma lines_of_length put_double T d :
  List.length (lines_of put_double T d) = List.length (preorder T).
Proof.
  revert d. induction T as [n r | n cs IH] using Component_ind'; intros d;
    [reflexivity |].
  cbn [lines_of preorder List.length]. f_equal.
  induction IH as [| c cs Hc _ IHcs]; [reflexivity |].
  cbn [flat_map]. now rewrite !length_app, Hc, IHcs.
Qed.

Lemma lines_of_depths put_double T d :
  Forall (fun l => d <= getDepth l) (lines_of put_double T d).
Proof.
  revert d. induction T as [n r | n cs IH] using Component_ind'; intros d.
  - constructor; [| constructor]. cbn [record_line append].
    rewrite getDepth_indent by discriminate. lia.
  - cbn [lines_of]. constructor.
    + cbn [record_line append]. rewrite getDepth_indent by discriminate. lia.
    + induction IH as [| c cs Hc _ IHcs]; [constructor |].
      cbn [flat_map]. apply Forall_app. split; [| exact IHcs].
      eapply Forall_impl; [| apply (Hc (d + 1))]. cbn. intros; lia.
Qed.

(** X15. When no name holds a newline and no revenue is written with
    one, [save] writes exactly one line per node, in pre-order, the first
    at the depth given and none at a smaller depth. *)
Theorem X15_save_one_line_per_node (put_double : float -> string)
                                   (T : Component) (d : nat) :
  plain put_double T ->
  getlines (save put_double T d) = lines_of put_double T d
  /\ List.length (getlines (save put_double T d)) = List.length (preorder T)
  /\ Forall (fun l => d <= getDepth l) (getlines (save put_double T d))
  /\ nth_error (getlines (save put_double T d)) 0
     = Some (record_line put_double T d).
Proof.
  intros HT.
  assert (Hl : getlines (save put_double T d) = lines_of put_double T d).
  { unfold getlines.
    rewrite <- (sapp_nil_r (save put_double T d)), getlines_save_plain
      by exact HT.
    cbn [getlines_from empty]. apply app_nil_r. }
  rewrite Hl. split; [reflexivity |]. split; [apply lines_of_length |].
  split; [apply lines_of_depths |]. now destruct T.
Qed.

Lemma X15_save_one_line_per_node_witness :
  getlines (save Libc.put_double initial_root 0)
  = lines_of Libc.put_double initial_root 0
  /\ List.length (getlines (save Libc.put_double initial_root 0))
     = List.length (preorder initial_root)
  /\ Forall (fun l => 0 <= getDepth l)
            (getlines (save Libc.put_double initial_root 0))
  /\ nth_error (getlines (save Libc.put_double initial_root 0)) 0
     = Some (record_line Libc.put_double initial_root 0).
Proof.
  apply (X15_save_one_line_per_node Libc.put_double initial_root 0).
  vm_compute. repeat split.
Defined.

Lemma newlines_app a b : newlines (a ++ b) = newlines a + newlines b.
Proof.
  induction a as [| c a IH]; cbn; [reflexivity |]. rewrite IH. lia.
Qed.

Lemma newlines_plain s : no_char is_newline s = true -> newlines s = 0.
Proof.
  induction s as [| c s IH]; cbn; [reflexivity |].
  intros H. apply andb_prop in H as [Hc Hs].
  destruct (is_newline c); [discriminate |]. now rewrite IH.
Qed.

(** X16. When no name holds a newline and no revenue or total is written
    with one, [display] prints one line per node and one more, the total,
    per group; [save] prints one line per node. *)
Theorem X16_display_line_count (put_double : float -> string)
                               (T : Component) (ind : nat) :
  plain put_double T ->
  Forall (fun c => no_char is_newline (put_double (getRevenue c)) = true)
         (preorder T) ->
  newlines (display put_double T ind)
  = List.length (preorder T) + count_groups T
  /\ newlines (save put_double T ind) = List.length (preorder T).
Proof.
  intros HT Htot. split.
  - revert ind HT Htot.
    induction T as [n r | n cs IH] using Component_ind'; intros ind HT Htot.
    + destruct HT as [Hn Hp]. cbn [display]. rewrite !newlines_app.
      rewrite (newlines_plain _ (indent_plain ind)), (newlines_plain _ Hn),
        (newlines_plain _ Hp).
      reflexivity.
    + apply plain_children in HT as [Hn Hcs].
      cbn [preorder] in Htot. inversion Htot as [| ? ? Hg Hrest]; subst.
      cbn [display]. rewrite !newlines_app.
      rewrite (newlines_plain _ (indent_plain ind)), (newlines_plain _ Hn),
        (newlines_plain _ Hg).
      cbn [preorder count_groups List.length].
      assert (Hch :
        newlines (fold_right (fun child rest =>
                                (display put_double child (ind + 1) ++ rest)%string)
                             EmptyString cs)
        = List.length (flat_map preorder cs)
          + fold_right (fun child rest => count_groups child + rest) 0 cs).
      { clear Hg Htot.
        induction IH as [| c cs Hc _ IHcs]; [reflexivity |].
        inversion Hcs as [| ? ? Hsc Hscs]; subst.
        cbn [flat_map] in Hrest. apply Forall_app in Hrest as [Hr1 Hr2].
        cbn [fold_right flat_map]. rewrite newlines_app, length_app.
        rewrite (Hc _ Hsc Hr1), (IHcs Hscs Hr2). lia. }
      rewrite Hch. cbn. lia.
  - clear Htot. revert ind HT.
    induction T as [n r | n cs IH] using Component_ind'; intros ind HT.
    + destruct HT as [Hn Hp]. cbn [save]. rewrite !newlines_app.
      rewrite (newlines_plain _ (indent_plain ind)), (newlines_plain _ Hn),
        (newlines_plain _ Hp).
      reflexivity.
    + apply plain_children in HT as [Hn Hcs].
      cbn [save]. rewrite !newlines_app.
      rewrite (newlines_plain _ (indent_plain ind)), (newlines_plain _ Hn).
      cbn [preorder List.length].
      assert (Hch :
        newlines (fold_right (fun child rest =>
                                (save put_double child (ind + 1) ++ rest)%string)
                             EmptyString cs)
        = List.length (flat_map preorder cs)).
      { induction IH as [| c cs Hc _ IHcs]; [reflexivity |].
        inversion Hcs as [| ? ? Hsc Hscs]; subst.
        cbn [fold_right flat_map]. rewrite newlines_app, length_app.
        rewrite (Hc _ Hsc), (IHcs Hscs). lia. }
      rewrite Hch. cbn. lia.
Qed.

Lemma X16_display_line_count_witness :
  newlines (display Libc.put_double initial_root 0)
  = List.length (preorder initial_root) + count_groups initial_root
  /\ newlines (save Libc.put_double initial_root 0)
     = List.length (preorder initial_root).
Proof.
  apply (X16_display_line_count Libc.put_double initial_root 0).
  - vm_compute. repeat split.
  - unfold initial_root. cbn [preorder flat_map app].
    repeat (constructor; [vm_compute; reflexivity |]). constructor.
Defined.

(* ------------------------------------------------------------------ *)
(** ** Pointers and the menu of [main] *)

Lemma update_nth_length {A : Type} i (f : A -> A) l :
  List.length (update_nth i f l) = List.length l.
Proof.
  revert i. induction l as [| x l IH]; intros [| i]; cbn; auto.
Qed.

Lemma update_nth_app_l {A : Type} i (f : A -> A) l r :
  i < List.length l -> update_nth i f (l ++ r) = update_nth i f l ++ r.
Proof.
  revert i. induction l as [| x l IH]; intros [| i] H; cbn in *; try lia.
  - reflexivity.
  - rewrite IH by lia. reflexivity.
Qed.

Lemma update_nth_app_r {A : Type} i (f : A -> A) l r :
  List.length l <= i ->
  update_nth i f (l ++ r) = l ++ update_nth (i - List.length l) f r.
Proof.
  revert i. induction l as [| x l IH]; intros i H; cbn in *.
  - now rewrite Nat.sub_0_r.
  - destruct i as [| i]; [lia |]. cbn. rewrite IH by lia. reflexivity.
Qed.

Lemma update_nth_split {A : Type} i (f : A -> A) l x :
  nth_error l i = Some x ->
  l = firstn i l ++ x :: skipn (S i) l
  /\ update_nth i f l = firstn i l ++ f x :: skipn (S i) l.
Proof.
  revert i. induction l as [| y l IH]; intros [| i] H; cbn in *;
    try discriminate.
  - injection H as ->. auto.
  - destruct (IH _ H) as [H1 H2]. split; f_equal; assumption.
Qed.

Lemma games_refs_acc children : forall i games,
  snd (fold_left
         (fun '(i, games) child =>
            (S i,
             if isGroup child
             then games ++ map (cons i) (getAllGames_refs child)
             else games ++ [[i]]))
         children (i, games))
  = games ++ games_refs_from i children.
Proof.
  induction children as [| c cs IH]; intros i games; cbn [fold_left games_refs_from].
  - cbn. now rewrite app_nil_r.
  - rewrite IH. destruct (isGroup c); now rewrite <- app_assoc.
Qed.

Lemma getAllGames_refs_group n children :
  getAllGames_refs (Group n children) = games_refs_from 0 children.
Proof. cbn [getAllGames_refs]. now rewrite games_refs_acc. Qed.

Lemma getAllGames_group n children :
  getAllGames (Group n children)
  = flat_map (fun child => if isGroup child then getAllGames child else [child])
             children.
Proof. cbn [getAllGames]. now rewrite collect_games_acc. Qed.

Lemma children_refs_acc (children : list Component) : forall i result,
  snd (fold_left (fun '(i, result) (_ : Component) => (S i, result ++ [[i]]))
                 children (i, result))
  = result ++ map (fun k => [k]) (seq i (List.length children)).
Proof.
  induction children as [| c cs IH]; intros i result; cbn [fold_left].
  - cbn. now rewrite app_nil_r.
  - rewrite IH. cbn. now rewrite <- app_assoc.
Qed.

Lemma nth_error_middle {A : Type} (pre : list A) x rest :
  nth_error (pre ++ x :: rest) (List.length pre) = Some x.
Proof. induction pre as [| y pre IH]; [reflexivity | exact IH]. Qed.

(** The pointers to the games of a group lead to its games, in order. *)
Lemma deref_games g :
  map (deref g) (getAllGames_refs g) = map Some (getAllGames g).
Proof.
  induction g as [n r | n cs IH] using Component_ind'; [reflexivity |].
  rewrite getAllGames_refs_group, getAllGames_group.
  assert (H : forall pre,
    map (deref (Group n (pre ++ cs))) (games_refs_from (List.length pre) cs)
    = map Some
        (flat_map (fun child => if isGroup child then getAllGames child
                                else [child]) cs)).
  { induction IH as [| c cs Hc _ IHcs]; intros pre; [reflexivity |].
    cbn [games_refs_from flat_map]. rewrite !map_app. f_equal.
    - destruct (isGroup c).
      + rewrite map_map, <- Hc. apply map_ext. intros p.
        cbn [deref]. now rewrite nth_error_middle.
      + cbn [map deref]. now rewrite nth_error_middle.
    - specialize (IHcs (pre ++ [c])).
      rewrite <- app_assoc, length_app in IHcs. cbn in IHcs.
      now rewrite Nat.add_1_r in IHcs. }
  exact (H []).
Qed.

Lemma games_refs_length g :
  List.length (getAllGames_refs g) = List.length (getAllGames g).
Proof.
  rewrite <- (length_map (deref g)), deref_games. apply length_map.
Qed.

Lemma games_refs_cons i cs p :
  In p (games_refs_from i cs) -> exists j p', p = j :: p'.
Proof.
  revert i. induction cs as [| c cs IH]; intros i H; cbn in H; [easy |].
  apply in_app_or in H as [H | H]; [| now apply (IH _ H)].
  destruct (isGroup c).
  - apply in_map_iff in H as (p' & <- & _). eauto.
  - destruct H as [<- | []]. eauto.
Qed.

Section Modify.

Variable f : Component -> Component.
Hypothesis f_game : forall x, isGroup x = false -> isGroup (f x) = false.

(** Changing a game through the [k]-th pointer of [getAllGames] changes
    the [k]-th game listed, and nothing else. *)
Lemma modify_games g : forall k p,
  nth_error (getAllGames_refs g) k = Some p ->
  getAllGames (modify f p g) = update_nth k f (getAllGames g).
Proof.
  induction g as [n r | n cs IH] using Component_ind'.
  - intros [| k] p H; discriminate.
  - intros k p H. rewrite getAllGames_refs_group in H.
    rewrite getAllGames_group.
    set (leafs := fun child : Component =>
                    if isGroup child then getAllGames child else [child]).
    assert (Hch : forall i k p,
      nth_error (games_refs_from i cs) k = Some p ->
      exists j p', p = (i + j) :: p' /\
        flat_map leafs (update_nth j (modify f p') cs)
        = update_nth k f (flat_map leafs cs)).
    { clear k p H.
      induction IH as [| c cs Hc _ IHcs]; intros i k p H.
      - destruct k; discriminate.
      - cbn [games_refs_from] in H.
        set (Rc := if isGroup c then map (cons i) (getAllGames_refs c)
                   else [[i]]) in H.
        assert (HlenR : List.length Rc = List.length (leafs c)).
        { subst Rc leafs. cbn beta. destruct (isGroup c); [| reflexivity].
          rewrite length_map. apply games_refs_length. }
        destruct (Nat.lt_ge_cases k (List.length Rc)) as [Hk | Hk].
        + rewrite nth_error_app1 in H by exact Hk.
          exists 0. subst Rc. destruct (isGroup c) eqn:Hgc.
          * rewrite nth_error_map in H.
            match type of H with
            | option_map _ ?x = _ => destruct x as [p' |] eqn:Hp'
            end; cbn [option_map] in H; [| discriminate H].
            injection H as <-.
            exists p'. split; [f_equal; lia |].
            cbn [update_nth flat_map].
            assert (Hgm : isGroup (modify f p' c) = true).
            { destruct c as [m r | m ds]; [discriminate |].
              rewrite getAllGames_refs_group in Hp'.
              apply nth_error_In, games_refs_cons in Hp' as (j & q & ->).
              reflexivity. }
            unfold leafs at 1. rewrite Hgm, (Hc _ _ Hp').
            rewrite update_nth_app_l by (rewrite <- HlenR; exact Hk).
            unfold leafs at 2. now rewrite Hgc.
          * destruct k as [| k]; [| cbn in Hk; lia].
            injection H as <-. exists []. split; [f_equal; lia |].
            cbn [update_nth flat_map modify].
            unfold leafs at 1 3. rewrite Hgc, (f_game _ Hgc). reflexivity.
        + rewrite nth_error_app2 in H by exact Hk.
          destruct (IHcs _ _ _ H) as (j & p' & -> & Hfm).
          exists (S j), p'. split; [f_equal; lia |].
          cbn [update_nth flat_map]. rewrite Hfm.
          rewrite update_nth_app_r by (rewrite <- HlenR; exact Hk).
          now rewrite HlenR. }
    destruct (Hch 0 k p H) as (j & p' & -> & Hfm).
    cbn [Nat.add modify]. rewrite getAllGames_group. exact Hfm.
Qed.

End Modify.

Lemma nth_error_update_nth {A : Type} (f : A -> A) l : forall i j,
  nth_error (update_nth i f l) j
  = if Nat.eqb i j then option_map f (nth_error l j) else nth_error l j.
Proof.
  induction l as [| x l IH]; intros [| i] [| j]; cbn; try reflexivity.
  - now destruct (Nat.eqb i j).
  - apply IH.
Qed.

Lemma map_getName_update (f : Component -> Component) l :
  (forall x, getName (f x) = getName x) ->
  forall k, map getName (update_nth k f l) = map getName l.
Proof.
  intros Hf. induction l as [| x l IH]; intros [| k]; cbn; try reflexivity.
  - now rewrite Hf.
  - now rewrite IH.
Qed.

Lemma map_nth_error_seq {A : Type} (pre l : list A) :
  map (nth_error (pre ++ l)) (seq (List.length pre) (List.length l))
  = map Some l.
Proof.
  revert pre. induction l as [| x l IH]; intros pre; [reflexivity |].
  cbn [List.length seq map]. rewrite nth_error_middle. f_equal.
  specialize (IH (pre ++ [x])).
  rewrite <- app_assoc, length_app in IH. cbn in IH.
  now rewrite Nat.add_1_r in IH.
Qed.

(** X17. The pointers [getChildren] and [getAllGames] hand out designate
    the children, and the games, of the group they were asked of, in the
    order of the value lists. *)
Theorem X17_pointers_designate_nodes (n : string) (children : list Component) :
  map (deref (Group n children)) (getAllGames_refs (Group n children))
  = map Some (getAllGames (Group n children))
  /\ map (deref (Group n children)) (getChildren_refs (Group n children))
     = map Some (getChildren (Group n children)).
Proof.
  split; [apply deref_games |].
  cbn [getChildren_refs getChildren].
  rewrite children_refs_acc, push_children_acc. cbn [app].
  rewrite map_map.
  rewrite <- (map_nth_error_seq [] children). apply map_ext.
  intros k. cbn [deref app]. now destruct (nth_error children k).
Qed.

Lemma firstn_skipn_middle {A : Type} (pre : list A) x post :
  firstn (List.length pre) (pre ++ x :: post) = pre
  /\ firstn (S (List.length pre)) (pre ++ x :: post) = pre ++ [x]
  /\ skipn (S (List.length pre)) (pre ++ x :: post) = post.
Proof.
  induction pre as [| y pre (IH1 & IH2 & IH3)]; [repeat split |].
  cbn [List.length app]. repeat split.
  - cbn [firstn]. now rewrite IH1.
  - change (firstn (S (S (List.length pre))) (y :: pre ++ x :: post))
      with (y :: firstn (S (List.length pre)) (pre ++ x :: post)).
    now rewrite IH2.
  - exact IH3.
Qed.

Lemma getChildren_group n cs : getChildren (Group n cs) = cs.
Proof. cbn. now rewrite push_children_acc. Qed.

(** X18. Menu entry 2. When the number selects a group among the
    children of the root, the new game becomes the last child of that
    group: it is listed by [getAllGames] right after the games of the
    children up to that group, and nothing else changes. When the number
    is 0, too large, or selects a game, the tree stays as it is. *)
Theorem X18_menu_add_game (n : string) (children : list Component)
                          (groupIndex : nat) (gameName : string)
                          (revenue : float) :
  let root := Group n children in
  let root' := fst (menu_add_game root groupIndex gameName revenue) in
  (forall m ds,
     0 < groupIndex ->
     nth_error children (groupIndex - 1) = Some (Group m ds) ->
     root' = Group n (firstn (groupIndex - 1) children
                        ++ Group m (ds ++ [Game gameName revenue])
                        :: skipn groupIndex children)
     /\ getAllGames root'
        = getAllGames (Group n (firstn groupIndex children))
            ++ Game gameName revenue
            :: getAllGames (Group n (skipn groupIndex children)))
  /\ (groupIndex = 0 \/ List.length children < groupIndex
      \/ (exists gn gr,
            nth_error children (groupIndex - 1) = Some (Game gn gr)) ->
      root' = root).
Proof.
  intros root root'. subst root root'. unfold menu_add_game.
  rewrite getChildren_group. split.
  - intros m ds Hpos Hnth.
    assert (Hlen : groupIndex <= List.length children).
    { assert (groupIndex - 1 < List.length children)
        by (apply nth_error_Some; congruence).
      lia. }
    apply Nat.ltb_lt in Hpos as Hpos'. apply Nat.leb_le in Hlen as Hlen'.
    rewrite Hpos', Hlen', Hnth. cbn [andb isGroup fst modify].
    destruct (nth_error_split _ _ Hnth) as (pre & post & -> & Hpre).
    replace groupIndex with (S (List.length pre)) by lia.
    replace (S (List.length pre) - 1) with (List.length pre) by lia.
    destruct (firstn_skipn_middle pre (Group m ds) post) as (H1 & H2 & H3).
    rewrite H1, H2, H3.
    rewrite (proj2 (update_nth_split _
               (fun group => add group (Game gameName revenue)) _ _
               (nth_error_middle pre (Group m ds) post))).
    rewrite H1, H3. cbn [add]. split; [reflexivity |].
    rewrite !getAllGames_group, !flat_map_app. cbn [flat_map isGroup].
    rewrite getAllGames_group, flat_map_app. cbn [flat_map isGroup].
    rewrite getAllGames_group, !app_nil_r, <- !app_assoc. reflexivity.
  - intros [-> | [Hbig | (gn & gr & Hnth)]].
    + reflexivity.
    + apply Nat.leb_gt in Hbig. rewrite Hbig, andb_false_r. reflexivity.
    + rewrite Hnth, andb_false_r. reflexivity.
Qed.

Lemma X18_menu_add_game_witness :
  fst (menu_add_game initial_root 2 "Lucky 7" 10)
  = Group "Casino Games"
      [Group "Table Games" [Game "Blackjack" 0; Game "Roulette" 0];
       Group "Slot Games" [Game "Mega Joker" 0; Game "Lucky 7" 10]]
  /\ fst (menu_add_game initial_root 3 "Lucky 7" 10) = initial_root.
Proof.
  destruct (X18_menu_add_game "Casino Games"
              [Group "Table Games" [Game "Blackjack" 0; Game "Roulette" 0];
               Group "Slot Games" [Game "Mega Joker" 0]] 2 "Lucky 7" 10)
    as [Hvalid _].
  destruct (X18_menu_add_game "Casino Games"
              [Group "Table Games" [Game "Blackjack" 0; Game "Roulette" 0];
               Group "Slot Games" [Game "Mega Joker" 0]] 3 "Lucky 7" 10)
    as [_ Hinvalid].
  split.
  - apply (Hvalid "Slot Games" [Game "Mega Joker" 0]); [cbn; lia | reflexivity].
  - apply Hinvalid. right. left. cbn. lia.
Defined.

(** X19. Menu entry 3. When the number selects a game of the list
    [getAllGames] returned, that game and no other gets the amount added
    to its revenue: the games keep their order, their number and their
    names. When the number is 0 or too large, the tree stays as it is. *)
Theorem X19_menu_add_revenue (put_double : float -> string)
                             (n : string) (children : list Component)
                             (gameIndex : nat) (amount : float) :
  let root := Group n children in
  let root' := fst (menu_add_revenue put_double root gameIndex amount) in
  (0 < gameIndex <= List.length (getAllGames root) ->
     nth_error (getAllGames root') (gameIndex - 1)
     = option_map (fun game => addRevenue game amount)
                  (nth_error (getAllGames root) (gameIndex - 1))
     /\ (forall j, j <> gameIndex - 1 ->
           nth_error (getAllGames root') j = nth_error (getAllGames root) j)
     /\ map getName (getAllGames root') = map getName (getAllGames root))
  /\ (gameIndex = 0 \/ List.length (getAllGames root) < gameIndex ->
      root' = root).
Proof.
  intros root root'. subst root'. unfold menu_add_revenue. split.
  - intros [Hpos Hlen].
    apply Nat.ltb_lt in Hpos as Hpos'. apply Nat.leb_le in Hlen as Hlen'.
    rewrite Hpos', Hlen'. cbn [andb].
    destruct (nth_error (getAllGames_refs root) (gameIndex - 1)) as [p |] eqn:Hp.
    + cbn [fst].
      assert (Hg : getAllGames (modify (fun game => addRevenue game amount) p root)
                   = update_nth (gameIndex - 1)
                       (fun game => addRevenue game amount) (getAllGames root)).
      { apply modify_games; [| exact Hp]. now intros [gn gr | gn gcs]. }
      rewrite Hg. split; [| split].
      * now rewrite nth_error_update_nth, Nat.eqb_refl.
      * intros j Hj. rewrite nth_error_update_nth.
        destruct (Nat.eqb_spec (gameIndex - 1) j); [congruence | reflexivity].
      * apply map_getName_update. now intros [gn gr | gn gcs].
    + apply nth_error_None in Hp. rewrite games_refs_length in Hp. lia.
  - intros [-> | Hbig]; [reflexivity |].
    apply Nat.leb_gt in Hbig. rewrite Hbig, andb_false_r. reflexivity.
Qed.

Lemma X19_menu_add_revenue_witness :
  nth_error (getAllGames
               (fst (menu_add_revenue Libc.put_double initial_root 3 25)))
            (3 - 1)
  = Some (Game "Mega Joker" 25)
  /\ fst (menu_add_revenue Libc.put_double initial_root 4 25) = initial_root.
Proof.
  destruct (X19_menu_add_revenue Libc.put_double "Casino Games"
              [Group "Table Games" [Game "Blackjack" 0; Game "Roulette" 0];
               Group "Slot Games" [Game "Mega Joker" 0]] 3 25)
    as [Hvalid _].
  destruct (X19_menu_add_revenue Libc.put_double "Casino Games"
              [Group "Table Games" [Game "Blackjack" 0; Game "Roulette" 0];
               Group "Slot Games" [Game "Mega Joker" 0]] 4 25)
    as [_ Hinvalid].
  split.
  - destruct Hvalid as [H _]; [cbn; lia |].
    etransitivity; [exact H | reflexivity].
  - apply Hinvalid. right. cbn. lia.
Defined.

(** X20. Every menu entry leaves a group at the root, so the casts of
    [root] to [Group*] in entries 2 and 3 are sound: a load installs a
    group or keeps the tree, adding a game or a revenue changes a node
    below the root, a save changes nothing. *)
Theorem X20_root_stays_a_group (put_double : float -> string)
                               (stod : string -> result float)
                               (root : Component) (src : source)
                               (dst : destination) (k : nat)
                               (name : string) (x : float) :
  isGroup root = true ->
  (forall root' out,
     menu_load put_double stod root src = Ok (root', out) ->
     isGroup root' = true)
  /\ isGroup (fst (menu_add_game root k name x)) = true
  /\ isGroup (fst (menu_add_revenue put_double root k x)) = true
  /\ fst (menu_save put_double root dst) = root.
Proof.
  intros Hroot. split; [| split; [| split]].
  - intros root' out. unfold menu_load.
    destruct (loadFromFile stod src) as [[[gn gr | gn gcs] |] | e];
      intros H; try discriminate; injection H as <- _;
      [exact Hroot | reflexivity | exact Hroot].
  - destruct root as [gn gr | gn gcs]; [discriminate |].
    unfold menu_add_game.
    destruct (_ && _ && _); reflexivity.
  - destruct root as [gn gr | gn gcs]; [discriminate |].
    unfold menu_add_revenue.
    destruct (_ && _); [| reflexivity].
    destruct (nth_error _ _) as [[| i p] |]; reflexivity.
  - reflexivity.
Qed.

Lemma X20_root_stays_a_group_witness :
  isGroup (fst (menu_add_game initial_root 1 "Baccarat" 5)) = true
  /\ isGroup (fst (menu_add_revenue Libc.put_double initial_root 1 5)) = true.
Proof.
  destruct (X20_root_stays_a_group Libc.put_double Libc.stod initial_root
              None true 1 "Baccarat" 5 eq_refl) as (_ & H2 & H3 & _).
  split; [exact H2 |].
  destruct (X20_root_stays_a_group Libc.put_double Libc.stod initial_root
              None true 1 "Baccarat" 5 eq_refl) as (_ & _ & H & _).
  exact H.
Defined.

(** X21. A save followed by a load of what the save wrote. Whenever
    the save of a storable group wrote a text, a load that opens a file
    of that text reads the group back: it becomes the root, whatever the
    tree was, and is displayed. A save whose file could be opened does
    write a text, the serialization of the group at depth 0. *)
Theorem X21_save_then_load (put_double : float -> string)
                           (stod : string -> result float)
                           (n : string) (children : list Component)
                           (current : Component) (dst : destination)
                           (text : string) :
  storable put_double stod (Group n children) ->
  written (snd (menu_save put_double (Group n children) dst)) = Some text ->
  dst = true
  /\ text = save put_double (Group n children) 0
  /\ menu_load put_double stod current (Some text)
     = Ok (Group n children,
           ("Loaded from: casino.txt" ++ endl
              ++ display put_double (Group n children) 0)%string).
Proof.
  intros Hs Hw. destruct dst; [| discriminate].
  change (Some (save put_double (Group n children) 0) = Some text) in Hw.
  remember (save put_double (Group n children) 0) as t eqn:Et.
  injection Hw as <-. subst t.
  split; [reflexivity |]. split; [reflexivity |].
  unfold menu_load. now rewrite (storable_loads _ _ _ Hs).
Qed.

Lemma X21_save_then_load_witness :
  written (snd (menu_save Libc.put_double initial_root true))
  = Some (save Libc.put_double initial_root 0)
  /\ fst (match menu_load Libc.put_double Libc.stod (Group "Empty" [])
                 (Some (save Libc.put_double initial_root 0))
         with
         | Ok r => r
         | Throw _ => (Group "Empty" [], EmptyString)
         end) = initial_root.
Proof.
  split; [reflexivity |].
  destruct (X21_save_then_load Libc.put_double Libc.stod "Casino Games"
              [Group "Table Games" [Game "Blackjack" 0; Game "Roulette" 0];
               Group "Slot Games" [Game "Mega Joker" 0]] (Group "Empty" [])
              true
              (save Libc.put_double initial_root 0))
    as (_ & _ & H).
  - vm_compute. repeat split; discriminate.
  - reflexivity.
  - rewrite H. reflexivity.
Defined.

(* ------------------------------------------------------------------ *)
(** ** The text format is positional and relative *)

(** X22. A storable tree saved at depth [d] is read back wherever its
    lines lie: after any lines, and before any lines that start with a
    non-empty line not deeper than [d], [parse] at the first of its lines
    returns the tree and leaves the cursor after the last of them. *)
Theorem X22_saved_subtree_is_read_in_place (put_double : float -> string)
                                           (stod : string -> result float)
                                           (T : Component) (d : nat)
                                           (before after : list string) :
  storable put_double stod T ->
  ends_group d after ->
  parse stod (before ++ getlines (save put_double T d) ++ after)
        (List.length before)
  = Ok (Some T,
        List.length before + List.length (getlines (save put_double T d))).
Proof.
  intros HT Hafter.
  assert (Hl : getlines (save put_double T d) = lines_of put_double T d).
  { unfold getlines.
    rewrite <- (sapp_nil_r (save put_double T d)),
      (getlines_save _ stod) by exact HT.
    cbn [getlines_from empty]. apply app_nil_r. }
  rewrite Hl.
  change (Ok (Some T, List.length before
                      + List.length (lines_of put_double T d)))
    with (shift (List.length before)
            (Ok (Some T, List.length (lines_of put_double T d)))).
  apply parse_reads.
  rewrite skipn_app, Nat.sub_diag, skipn_all2 by lia.
  now apply saved_tree_reads.
Qed.

Lemma X22_saved_subtree_is_read_in_place_witness :
  parse Libc.stod
    (["GROUP Casino"]
       ++ getlines (save Libc.put_double
                      (Group "Slot Games" [Game "Mega Joker" 0]) 1)
       ++ ["  GAME Roulette 50.5"]) 1
  = Ok (Some (Group "Slot Games" [Game "Mega Joker" 0]), 1 + 2).
Proof.
  apply (X22_saved_subtree_is_read_in_place Libc.put_double Libc.stod
           (Group "Slot Games" [Game "Mega Joker" 0]) 1
           ["GROUP Casino"] ["  GAME Roulette 50.5"]).
  - vm_compute. repeat split; discriminate.
  - vm_compute. split; [reflexivity | lia].
Defined.

Lemma empty_indent_app k line :
  empty line = false -> empty (indent k ++ line) = false.
Proof. destruct k; [trivial | reflexivity]. Qed.

Lemma is_group_record_indent k line :
  is_group_record (indent k ++ line) = is_group_record line.
Proof. unfold is_group_record. now rewrite trimSpaces_indent_app. Qed.

Lemma single_record_indent stod k line :
  single_record stod (indent k ++ line) = single_record stod line.
Proof.
  unfold single_record, is_game_record, leaf_parts.
  now rewrite trimSpaces_indent_app.
Qed.

Section Relative.

Variable stod : string -> result float.
Variable k : nat.

Lemma indented_rel :
  (forall ls r, parse_rel stod ls r ->
     Forall (fun l => empty l = false) ls ->
     parse_rel stod (map (append (indent k)) ls) r) /\
  (forall d ls g r, while_rel stod d ls g r ->
     Forall (fun l => empty l = false) ls ->
     while_rel stod (k + d) (map (append (indent k)) ls) g r).
Proof.
  apply parse_while_rel_ind.
  - intros _. constructor.
  - intros rest res _ _ H. inversion H; subst. discriminate.
  - intros line rest res He Hg _ IH H. inversion H as [| ? ? _ Hrest]; subst.
    cbn [map]. apply IH in Hrest.
    apply PR_group.
    + now apply empty_indent_app.
    + now rewrite is_group_record_indent.
    + now rewrite getDepth_indent_app, trimSpaces_indent_app.
  - intros line rest He Hg _. cbn [map].
    rewrite <- (single_record_indent stod k line).
    apply PR_single; [now apply empty_indent_app |].
    now rewrite is_group_record_indent.
  - intros d g _. constructor.
  - intros d rest g res _ _ H. inversion H; subst. discriminate.
  - intros d line rest g He Hd _. cbn [map]. apply WR_break.
    + now apply empty_indent_app.
    + rewrite getDepth_indent_app. lia.
  - intros d line rest g child n res He Hd _ IHp _ IHw H.
    change (map (append (indent k)) (line :: rest))
      with ((indent k ++ line)%string :: map (append (indent k)) rest) in *.
    eapply WR_child.
    + now apply empty_indent_app.
    + rewrite getDepth_indent_app. lia.
    + exact (IHp H).
    + change ((indent k ++ line)%string :: map (append (indent k)) rest)
        with (map (append (indent k)) (line :: rest)).
      rewrite skipn_map. apply IHw. now apply Forall_skipn_keep.
  - intros d line rest g e He Hd _ IHp H.
    change (map (append (indent k)) (line :: rest))
      with ((indent k ++ line)%string :: map (append (indent k)) rest) in *.
    apply WR_child_throw.
    + now apply empty_indent_app.
    + rewrite getDepth_indent_app. lia.
    + exact (IHp H).
  - intros d line rest g res He Hd _ IH H.
    inversion H as [| ? ? _ Hrest]; subst. cbn [map]. apply WR_orphan.
    + now apply empty_indent_app.
    + rewrite getDepth_indent_app. lia.
    + now apply IH.
Qed.

End Relative.

(** X23. Only relative indentation counts: when no line is empty,
    indenting every line by the same number of levels changes neither the
    tree [parse] returns nor the cursor. (An empty line would become a
    line of spaces, which is read as a line.) *)
Theorem X23_only_relative_depth_counts (stod : string -> result float)
                                       (k : nat) (lines : list string) :
  Forall (fun l => empty l = false) lines ->
  parse stod (map (append (indent k)) lines) 0 = parse stod lines 0.
Proof.
  intros H. apply parse_reads_0.
  apply (proj1 (indented_rel stod k)); [| exact H].
  now apply parse_reads_0.
Qed.

Lemma X23_only_relative_depth_counts_witness :
  parse Libc.stod
        (map (append (indent 2)) ["GROUP Casino"; "  GAME Blackjack 100"]) 0
  = parse Libc.stod ["GROUP Casino"; "  GAME Blackjack 100"] 0.
Proof.
  apply (X23_only_relative_depth_counts Libc.stod 2
           ["GROUP Casino"; "  GAME Blackjack 100"]).
  repeat constructor.
Defined.
